(** * Cache and lock subsystem of the spatial-plot web site

    A shallow embedding of [app/config.py], [app/cache.py] and
    [app/render.py]: key sanitisation, the file-based locks, the
    size-bounded pruning of the figure cache and the three [ensure_*]
    entry points, followed by the properties proved about them.

    Conventions of the embedding.
    - A Python [str] is a list of Unicode code points ([pystr]).
    - A resolved [pathlib.Path] is the list of its components ([path]).
    - The file system, the descriptor table, the clock and the environment
      variable [DEFAULT_LIB] form the [world]; every system call of the
      program also leaves an [event] in the world's log, newest first.
    - Code that raises becomes a computation in the monad [M], whose result
      is either an exception ([exn]) or a value.
    - Clock readings are integers (milliseconds); modification times are
      integers: the program only compares and subtracts them. *)

From Stdlib Require Import List ZArith NArith Bool String Ascii Lia.
From Stdlib Require Import DecimalString Permutation Sorted RelationClasses.
Import ListNotations.
Local Open Scope Z_scope.

(* ================================================================= *)
(** ** Python strings *)

Definition pychar := N.
Definition pystr := list pychar.

(** An ASCII literal as a Python string. *)
Definition py (s : string) : pystr := map N_of_ascii (list_ascii_of_string s).

Fixpoint str_eqb (a b : pystr) : bool :=
  match a, b with
  | [], [] => true
  | x :: a', y :: b' => N.eqb x y && str_eqb a' b'
  | _, _ => false
  end.

(** [str.isspace]: the code points CPython treats as white space. *)
Definition isspace (c : pychar) : bool :=
  (((9 <=? c) && (c <=? 13)) || ((28 <=? c) && (c <=? 32))
   || (c =? 133) || (c =? 160) || (c =? 5760)
   || ((8192 <=? c) && (c <=? 8202))
   || (c =? 8232) || (c =? 8233) || (c =? 8239) || (c =? 8287)
   || (c =? 12288))%N.

Fixpoint lstrip (s : pystr) : pystr :=
  match s with
  | [] => []
  | c :: t => if isspace c then lstrip t else s
  end.

Definition rstrip (s : pystr) : pystr := rev (lstrip (rev s)).

(** [str.strip()] *)
Definition strip (s : pystr) : pystr := rstrip (lstrip s).

Definition ascii_alnum (c : pychar) : bool :=
  (((48 <=? c) && (c <=? 57)) || ((65 <=? c) && (c <=? 90))
   || ((97 <=? c) && (c <=? 122)))%N.

(** Lexicographic order on code points, the order of [sorted] on names. *)
Fixpoint str_leb (a b : pystr) : bool :=
  match a, b with
  | [], _ => true
  | _ :: _, [] => false
  | x :: a', y :: b' => (x <? y)%N || ((x =? y)%N && str_leb a' b')
  end.

Fixpoint ends_with_rev (rsuffix rs : pystr) : bool :=
  match rsuffix, rs with
  | [], _ => true
  | x :: p, y :: q => N.eqb x y && ends_with_rev p q
  | _ :: _, [] => false
  end.

(** [s.endswith(suffix)] *)
Definition ends_with (suffix s : pystr) : bool :=
  ends_with_rev (rev suffix) (rev s).

(** Decimal text of an integer, as an f-string prints it. *)
Definition str_of_int (z : Z) : pystr := py (NilZero.string_of_int (Z.to_int z)).

(* ================================================================= *)
(** ** Paths *)

Definition path := list pystr.

Fixpoint path_eqb (a b : path) : bool :=
  match a, b with
  | [], [] => true
  | x :: a', y :: b' => str_eqb x y && path_eqb a' b'
  | _, _ => false
  end.

Fixpoint split_slash (s : pystr) : list pystr :=
  match s with
  | [] => [[]]
  | c :: t =>
      if (c =? 47)%N then [] :: split_slash t
      else match split_slash t with
           | [] => [[c]]
           | h :: r => (c :: h) :: r
           end
  end.

(** The components a POSIX path string contributes: empty and ["."]
    components are dropped. *)
Definition path_parts (s : pystr) : list pystr :=
  filter (fun p => negb (str_eqb p [] || str_eqb p (py "."))) (split_slash s).

(** [d / s] of pathlib on POSIX: an absolute right operand replaces [d]. *)
Definition path_div (d : path) (s : pystr) : path :=
  match s with
  | [] => d
  | c :: _ => if (c =? 47)%N then path_parts s else d ++ path_parts s
  end.

(** [p.parent] and [p.name] *)
Definition parent (p : path) : path := removelast p.
Definition name (p : path) : pystr := last p [].

(** [d] is a proper ancestor of [p]: [p] is what [d.rglob("*")] can yield. *)
Fixpoint is_under (d p : path) : bool :=
  match d, p with
  | [], _ :: _ => true
  | [], [] => false
  | x :: d', y :: p' => str_eqb x y && is_under d' p'
  | _ :: _, [] => false
  end.

(** All non-empty prefixes of [p], shortest first: what
    [mkdir(parents=True)] creates. *)
Fixpoint prefixes (p : path) : list path :=
  match p with
  | [] => []
  | x :: t => [x] :: map (cons x) (prefixes t)
  end.

(** Position of the last ["."] of a name, if any ([str.rfind]). *)
Fixpoint rfind_dot (s : pystr) (i : nat) (found : option nat) : option nat :=
  match s with
  | [] => found
  | c :: t => rfind_dot t (S i) (if (c =? 46)%N then Some i else found)
  end.

(** [p.stem]: the name without its last suffix. *)
Definition stem (p : path) : pystr :=
  let n := name p in
  match rfind_dot n 0 None with
  | Some i => if (Nat.ltb 0 i && Nat.ltb i (List.length n - 1))%bool
              then firstn i n else n
  | None => n
  end.

(* ================================================================= *)
(** ** The world: files, descriptors, clock, environment, log *)

Record file := mkFile {
  f_path : path;
  f_mtime : Z;
  f_size : Z;
  (** removing the file is refused (permission denied, file busy) *)
  f_undeletable : bool
}.

Inductive event :=
| EvGetenv (var : pystr)
| EvExists (p : path)
| EvList (d : path)
| EvStat (p : path)
| EvMkdir (p : path)
| EvOpenExcl (p : path)
| EvWrite (fd : Z)
| EvClose (fd : Z)
| EvUnlink (p : path)
| EvSleep (ms : Z)
| EvRead (p : path)
| EvSavefig (p : path).

Record world := mkWorld {
  (** regular files, in the order a directory scan yields them *)
  w_files : list file;
  w_dirs : list path;
  (** open descriptors and the file each was opened on *)
  w_fds : list (Z * path);
  w_now : Z;
  (** [os.getenv("DEFAULT_LIB")] *)
  w_default_lib : option pystr;
  w_log : list event
}.

Inductive err_code :=
| BAD_INPUT | FILE_NOT_FOUND | LAYER_NOT_FOUND | GENE_NOT_FOUND | LOCK_TIMEOUT.

Inductive exn :=
| RenderError (code : err_code)
| FileExistsError
| FileNotFoundError
| PermissionError
| BadFileDescriptor
(** the polling loop of a lock whose poll interval is not positive *)
| SpinsForever.

Definition M (A : Type) : Type := world -> (exn + A) * world.

Definition ret {A} (a : A) : M A := fun w => (inr a, w).

Definition bind {A B} (c : M A) (k : A -> M B) : M B :=
  fun w => match c w with
           | (inr a, w') => k a w'
           | (inl e, w') => (inl e, w')
           end.

Definition raise {A} (e : exn) : M A := fun w => (inl e, w).

Notation "x <- c ;; k" := (bind c (fun x => k))
  (at level 61, c at next level, right associativity).
Notation "c ;; k" := (bind c (fun _ => k))
  (at level 61, right associativity).

(** [try: body finally: fin]: [fin] always runs; an exception of [fin]
    replaces the outcome of [body]. *)
Definition try_finally {A} (body : M A) (fin : M unit) : M A :=
  fun w => match body w with
           | (r, w') => match fin w' with
                        | (inr _, w'') => (r, w'')
                        | (inl e, w'') => (inl e, w'')
                        end
           end.

(** [try: body except Exception: pass] *)
Definition try_pass (body : M unit) : M unit :=
  fun w => match body w with
           | (_, w') => (inr tt, w')
           end.

Definition gets {A} (f : world -> A) : M A := fun w => (inr (f w), w).

Definition emit (e : event) : M unit :=
  fun w => (inr tt, mkWorld (w_files w) (w_dirs w) (w_fds w) (w_now w)
                            (w_default_lib w) (e :: w_log w)).

Definition set_files (fs : list file) : M unit :=
  fun w => (inr tt, mkWorld fs (w_dirs w) (w_fds w) (w_now w)
                            (w_default_lib w) (w_log w)).

Definition set_dirs (ds : list path) : M unit :=
  fun w => (inr tt, mkWorld (w_files w) ds (w_fds w) (w_now w)
                            (w_default_lib w) (w_log w)).

Definition set_fds (fds : list (Z * path)) : M unit :=
  fun w => (inr tt, mkWorld (w_files w) (w_dirs w) fds (w_now w)
                            (w_default_lib w) (w_log w)).

Definition set_now (t : Z) : M unit :=
  fun w => (inr tt, mkWorld (w_files w) (w_dirs w) (w_fds w) t
                            (w_default_lib w) (w_log w)).

(* ----------------------------------------------------------------- *)
(** *** System calls *)

Definition find_file (p : path) (w : world) : option file :=
  find (fun f => path_eqb (f_path f) p) (w_files w).

Definition is_file (p : path) (w : world) : bool :=
  match find_file p w with Some _ => true | None => false end.

Definition is_dir (p : path) (w : world) : bool :=
  existsb (path_eqb p) (w_dirs w).

Definition exists_in (p : path) (w : world) : bool := is_file p w || is_dir p w.

(** [p.exists()] *)
Definition path_exists (p : path) : M bool :=
  emit (EvExists p) ;; gets (exists_in p).

Definition files_under (d : path) (w : world) : list path :=
  map f_path (filter (fun f => is_under d (f_path f)) (w_files w)).

(** The regular files [d.rglob("*")] yields. *)
Definition rglob_files (d : path) : M (list path) :=
  emit (EvList d) ;; gets (files_under d).

Definition children (d : path) (w : world) : list path :=
  filter (fun p => path_eqb (parent p) d && negb (path_eqb p []))
         (map f_path (w_files w) ++ w_dirs w).

(** [d.glob("*" + suffix)]: the entries directly inside [d] whose name
    ends with [suffix]. *)
Definition glob_suffix (d : path) (suffix : pystr) : M (list path) :=
  emit (EvList d) ;;
  gets (fun w => filter (fun p => ends_with suffix (name p)) (children d w)).

(** [p.stat()], giving [(st_mtime, st_size)]. *)
Definition stat (p : path) : M (Z * Z) :=
  emit (EvStat p) ;;
  f <- gets (find_file p) ;;
  match f with
  | Some f => ret (f_mtime f, f_size f)
  | None => raise FileNotFoundError
  end.

(** [p.mkdir(parents=True, exist_ok=True)] *)
Definition mkdir_p (p : path) : M unit :=
  emit (EvMkdir p) ;;
  ds <- gets w_dirs ;;
  set_dirs (ds ++ filter (fun q => negb (existsb (path_eqb q) ds)) (prefixes p)).

Definition fd_open (fd : Z) (w : world) : bool :=
  existsb (fun e => Z.eqb (fst e) fd) (w_fds w).

(** The lowest descriptor above the standard streams that is not open. *)
Definition fresh_fd (w : world) : Z :=
  match find (fun n => negb (fd_open n w))
             (map Z.of_nat (seq 3 (S (List.length (w_fds w))))) with
  | Some n => n
  | None => 3 + Z.of_nat (List.length (w_fds w))
  end.

(** [os.open(p, O_CREAT | O_EXCL | ...)]: atomic create-if-absent. *)
Definition os_open_excl (p : path) : M Z :=
  emit (EvOpenExcl p) ;;
  taken <- gets (exists_in p) ;;
  if taken then raise FileExistsError
  else
    has_parent <- gets (is_dir (parent p)) ;;
    if negb has_parent then raise FileNotFoundError
    else
      fd <- gets fresh_fd ;;
      now <- gets w_now ;;
      fs <- gets w_files ;;
      set_files (fs ++ [mkFile p now 0 false]) ;;
      fds <- gets w_fds ;;
      set_fds ((fd, p) :: fds) ;;
      ret fd.

Definition grow (p : path) (n : Z) (f : file) : file :=
  if path_eqb (f_path f) p
  then mkFile (f_path f) (f_mtime f) (f_size f + n) (f_undeletable f)
  else f.

(** [os.write(fd, data)] with [n] bytes of data. *)
Definition os_write (fd : Z) (n : Z) : M unit :=
  emit (EvWrite fd) ;;
  fds <- gets w_fds ;;
  match find (fun e => Z.eqb (fst e) fd) fds with
  | None => raise BadFileDescriptor
  | Some (_, p) =>
      fs <- gets w_files ;;
      set_files (map (grow p n) fs)
  end.

(** [os.close(fd)] *)
Definition os_close (fd : Z) : M unit :=
  emit (EvClose fd) ;;
  fds <- gets w_fds ;;
  if existsb (fun e => Z.eqb (fst e) fd) fds
  then set_fds (filter (fun e => negb (Z.eqb (fst e) fd)) fds)
  else raise BadFileDescriptor.

(** [p.unlink(missing_ok=True)]: a missing file is not an error. *)
Definition unlink_missing_ok (p : path) : M unit :=
  emit (EvUnlink p) ;;
  f <- gets (find_file p) ;;
  match f with
  | None => ret tt
  | Some f =>
      if f_undeletable f then raise PermissionError
      else
        fs <- gets w_files ;;
        set_files (filter (fun g => negb (path_eqb (f_path g) p)) fs)
  end.

(** [time.time()], in milliseconds. *)
Definition time_time : M Z := gets w_now.

(** [time.sleep] *)
Definition time_sleep (ms : Z) : M unit :=
  emit (EvSleep ms) ;;
  now <- gets w_now ;;
  set_now (now + ms).

(** [os.getenv("DEFAULT_LIB")] *)
Definition getenv_DEFAULT_LIB : M (option pystr) :=
  emit (EvGetenv (py "DEFAULT_LIB")) ;; gets w_default_lib.

(** [try: body except <handled>: handler] *)
Definition try_except {A} (body : M A) (handled : exn -> bool) (handler : M A)
  : M A :=
  fun w => match body w with
           | (inl e, w') => if handled e then handler w' else (inl e, w')
           | (inr a, w') => (inr a, w')
           end.

Definition any_Exception (e : exn) : bool := true.

Definition is_FileExistsError (e : exn) : bool :=
  match e with FileExistsError => true | _ => false end.

Definition is_FileNotFoundError (e : exn) : bool :=
  match e with FileNotFoundError => true | _ => false end.

(** A [for] loop that threads its local variables. *)
Fixpoint for_each {A S} (l : list A) (body : S -> A -> M S) (s : S) : M S :=
  match l with
  | [] => ret s
  | x :: t => s' <- body s x ;; for_each t body s'
  end.

(** [sorted] / [list.sort]: a stable sort, here by insertion. *)
Fixpoint insert_by {A} (leb : A -> A -> bool) (x : A) (l : list A) : list A :=
  match l with
  | [] => [x]
  | y :: t => if leb x y then x :: l else y :: insert_by leb x t
  end.

Definition sort_by {A} (leb : A -> A -> bool) (l : list A) : list A :=
  fold_right (insert_by leb) [] l.

Fixpoint path_leb (a b : path) : bool :=
  match a, b with
  | [], _ => true
  | _ :: _, [] => false
  | x :: a', y :: b' => if str_eqb x y then path_leb a' b' else str_leb x y
  end.

(* ================================================================= *)
(** ** What the program takes from outside *)

(** The part of an [AnnData] object the program looks at. *)
Record AnnData := mkAnnData {
  layers : list pystr;
  var_names : list pystr;
  obs_columns : list pystr;
  raw_var_names : option (list pystr);
  n_obs : Z
}.

Inductive format := png | pdf | tiff.

Record externals := mkExternals {
  (** [str.isalnum] on the code points above ASCII (the Unicode database) *)
  unicode_alnum : pychar -> bool;
  (** length of the diagnostic line written into a lock file at a clock
      reading *)
  lock_payload_len : Z -> Z;
  (** [scanpy.read] *)
  sc_read : path -> AnnData;
  (** size of the image the plotting library saves: data, colour key,
      format, dpi, point size *)
  savefig_len : AnnData -> pystr -> format -> option Z -> Z -> Z
}.

(* ================================================================= *)
(** ** app/config.py *)

(** The settings read from the environment when the module is imported. *)
Record config := mkConfig {
  DATA_DIR : path;
  FIGURE_DIR : path;
  DEFAULT_LAYER : pystr;
  DEFAULT_BASIS : pystr;
  PLOT_PNG_DPI : Z;
  CACHE_MAX_GB : Z
}.

Definition PDF_DIR (cfg : config) : path := path_div (FIGURE_DIR cfg) (py "pdf").
Definition PNG_DIR (cfg : config) : path := path_div (FIGURE_DIR cfg) (py "png").
Definition TIFF_DIR (cfg : config) : path := path_div (FIGURE_DIR cfg) (py "tiff").
Definition LOCK_DIR (cfg : config) : path := path_div (FIGURE_DIR cfg) (py "locks").

Definition ALLOWED_EXPORT_DPI : list Z := [150; 300; 600; 1200].

Definition CACHE_MAX_BYTES (cfg : config) : Z := CACHE_MAX_GB cfg * 1024 ^ 3.

Definition CACHE_DIRS (cfg : config) : list path :=
  [PNG_DIR cfg; PDF_DIR cfg; TIFF_DIR cfg].

(* ================================================================= *)
(** ** app/cache.py *)

Record CachePruneResult := mkCachePruneResult {
  before_bytes : Z;
  after_bytes : Z;
  deleted_files : Z;
  deleted_bytes : Z;
  elapsed_ms : Z;
  skipped_due_to_lock : bool
}.

(** The generator [_iter_files], given the body of the loop that consumes
    it and the variables that loop updates. *)
Definition _iter_files {S} (dirs : list path) (body : S -> path -> M S) (s : S)
  : M S :=
  for_each dirs
    (fun s d =>
       present <- path_exists d ;;
       if negb present then ret s
       else ps <- rglob_files d ;; for_each ps body s)
    s.

Definition _total_size_bytes (dirs : list path) : M Z :=
  _iter_files dirs
    (fun total p =>
       try_except (st <- stat p ;; ret (total + snd st))
                  is_FileNotFoundError
                  (ret total))
    0.

Section Program.

Context (X : externals) (cfg : config).

Definition _acquire_prune_lock (lock_path : path) : M (option Z) :=
  try_except
    (fd <- os_open_excl lock_path ;;
     now <- time_time ;;
     os_write fd (lock_payload_len X now) ;;
     ret (Some fd))
    is_FileExistsError
    (ret None).

Definition _release_prune_lock (fd : Z) (lock_path : path) : M unit :=
  try_finally (os_close fd)
              (try_except (unlink_missing_ok lock_path) any_Exception (ret tt)).

(** An entry of the inventory: [(st_mtime, st_size, path)]. *)
Definition entry : Type := Z * Z * path.

Definition e_mtime (e : entry) : Z := fst (fst e).
Definition e_size (e : entry) : Z := snd (fst e).
Definition e_path (e : entry) : path := snd e.

Definition collect_entries (dirs : list path) : M (list entry) :=
  _iter_files dirs
    (fun entries p =>
       try_except (st <- stat p ;; ret (entries ++ [(fst st, snd st, p)]))
                  is_FileNotFoundError
                  (ret entries))
    [].

(** [entries.sort(key=lambda x: x[0])] *)
Definition sort_entries (entries : list entry) : list entry :=
  sort_by (fun a b => e_mtime a <=? e_mtime b) entries.

(** The candidates for deletion among the sorted entries. *)
Definition deletable_of (keep_newest : Z) (entries : list entry) : list entry :=
  if (0 <? keep_newest) && (keep_newest <? Z.of_nat (List.length entries))
  then firstn (List.length entries - Z.to_nat keep_newest) entries
  else entries.

(** The counters of the deletion loop:
    [(deleted_files, deleted_bytes, current)]. *)
Definition counters : Type := Z * Z * Z.

(** The deletion loop over [deletable]. *)
Fixpoint prune_loop (deletable : list entry) (max_bytes : Z) (st : counters)
  : M counters :=
  match deletable with
  | [] => ret st
  | (_, size, p) :: rest =>
      let '(deleted_files, deleted_bytes, current) := st in
      if current <=? max_bytes then ret st
      else
        st' <- try_except
                 (unlink_missing_ok p ;;
                  ret (deleted_files + 1, deleted_bytes + size, current - size))
                 any_Exception
                 (ret st) ;;
        prune_loop rest max_bytes st'
  end.

(** The body of the [try] block, run while the prune lock is held. *)
Definition prune_locked (t0 before max_bytes : Z) (dirs : list path)
  (keep_newest : Z) : M CachePruneResult :=
  current <- _total_size_bytes dirs ;;
  if current <=? max_bytes then
    now <- time_time ;;
    ret (mkCachePruneResult before current 0 0 (now - t0) false)
  else
    entries <- collect_entries dirs ;;
    let entries := sort_entries entries in
    let deletable := deletable_of keep_newest entries in
    st <- prune_loop deletable max_bytes (0, 0, current) ;;
    let '(deleted_files, deleted_bytes, _) := st in
    after <- _total_size_bytes dirs ;;
    now <- time_time ;;
    ret (mkCachePruneResult before after deleted_files deleted_bytes
                            (now - t0) false).

Definition prune_lock_path : path := path_div (LOCK_DIR cfg) (py "_prune.lock").

(** What [prune_cache_if_needed] does once the first measurement [before]
    exceeds the budget. *)
Definition prune_over_budget (t0 before max_bytes : Z) (dirs : list path)
  (keep_newest : Z) : M CachePruneResult :=
  mkdir_p (LOCK_DIR cfg) ;;
  let lock_path := prune_lock_path in
  fd <- _acquire_prune_lock lock_path ;;
  match fd with
  | None =>
      now_bytes <- _total_size_bytes dirs ;;
      now <- time_time ;;
      ret (mkCachePruneResult before now_bytes 0 0 (now - t0) true)
  | Some fd =>
      try_finally (prune_locked t0 before max_bytes dirs keep_newest)
                  (_release_prune_lock fd lock_path)
  end.

Definition prune_cache_if_needed (max_bytes : option Z)
  (dirs : option (list path)) (keep_newest : Z) : M CachePruneResult :=
  t0 <- time_time ;;
  let max_bytes :=
    match max_bytes with None => CACHE_MAX_BYTES cfg | Some m => m end in
  let dirs := match dirs with None => CACHE_DIRS cfg | Some ds => ds end in
  before <- _total_size_bytes dirs ;;
  if before <=? max_bytes then
    now <- time_time ;;
    ret (mkCachePruneResult before before 0 0 (now - t0) false)
  else prune_over_budget t0 before max_bytes dirs keep_newest.

(* ================================================================= *)
(** ** app/render.py *)

Record RenderResult := mkRenderResult {
  gene : pystr;
  out_path : path;
  cache_hit : bool
}.

Definition lift {A} (r : exn + A) : M A := fun w => (r, w).

(** [ch.isalnum()] *)
Definition isalnum (ch : pychar) : bool :=
  if (ch <? 128)%N then ascii_alnum ch else unicode_alnum X ch.

(** [ch.isalnum() or ch in "._-"] *)
Definition kept (ch : pychar) : bool :=
  isalnum ch || existsb (N.eqb ch) (py "._-").

Definition _safe_gene (gene : pystr) : exn + pystr :=
  let gene := strip gene in
  if str_eqb gene [] then inl (RenderError BAD_INPUT)
  else inr (map (fun ch => if kept ch then ch else 95%N) gene).

Definition _pick_default_library : M pystr :=
  env <- getenv_DEFAULT_LIB ;;
  let from_env :=
    match env with
    | Some e => if str_eqb (strip e) [] then None else Some (strip e)
    | None => None
    end in
  match from_env with
  | Some lib => ret lib
  | None =>
      present <- path_exists (DATA_DIR cfg) ;;
      if negb present then raise (RenderError FILE_NOT_FOUND)
      else
        files <- glob_suffix (DATA_DIR cfg) (py ".h5ad") ;;
        match sort_by path_leb files with
        | [] => raise (RenderError FILE_NOT_FOUND)
        | first :: _ => ret (stem first)
        end
  end.

Definition _adata_path (library : pystr) : M path :=
  let p := path_div (DATA_DIR cfg) (library ++ py ".h5ad") in
  present <- path_exists p ;;
  if negb present then raise (RenderError FILE_NOT_FOUND) else ret p.

(** The state of a [_FileLock] object. *)
Record FileLock := mkFileLock {
  lock_path : path;
  timeout_s : Z;
  poll_s : Z;
  _fd : option Z
}.

(** [_FileLock(lock_path)]: ten minutes of patience, polled five times a
    second (both in milliseconds). *)
Definition new_FileLock (lock_path : path) : FileLock :=
  mkFileLock lock_path 600000 200 None.

Definition set_fd (self : FileLock) (fd : option Z) : FileLock :=
  mkFileLock (lock_path self) (timeout_s self) (poll_s self) fd.

(** One round of the [while True] loop of [acquire]: the descriptor when
    the lock file could be created. *)
Definition try_lock (self : FileLock) : M (option Z) :=
  try_except
    (fd <- os_open_excl (lock_path self) ;;
     now <- time_time ;;
     os_write fd (lock_payload_len X now) ;;
     ret (Some fd))
    is_FileExistsError
    (ret None).

Fixpoint acquire_loop (fuel : nat) (self : FileLock) (start : Z) : M FileLock :=
  match fuel with
  | O => raise SpinsForever
  | S fuel' =>
      got <- try_lock self ;;
      match got with
      | Some fd => ret (set_fd self (Some fd))
      | None =>
          now <- time_time ;;
          if timeout_s self <? now - start
          then raise (RenderError LOCK_TIMEOUT)
          else time_sleep (poll_s self) ;; acquire_loop fuel' self start
      end
  end.

(** Rounds after which a lock that is never freed has timed out. *)
Definition acquire_rounds (self : FileLock) : nat :=
  Z.to_nat (timeout_s self / poll_s self) + 2.

(** [acquire]: the object with its descriptor set. *)
Definition acquire (self : FileLock) : M FileLock :=
  mkdir_p (parent (lock_path self)) ;;
  start <- time_time ;;
  acquire_loop (acquire_rounds self) self start.

(** [release]; whatever the outcome, the object ends with [_fd = None],
    that is as [set_fd self None]. *)
Definition release (self : FileLock) : M unit :=
  try_finally
    (match _fd self with
     | Some fd => os_close fd
     | None => ret tt
     end)
    (try_except (unlink_missing_ok (lock_path self)) any_Exception (ret tt)).

(** [with lock: body]; [__exit__] returns [False], so an exception of
    [body] goes on after the release. *)
Definition with_FileLock {A} (lock : FileLock) (body : M A) : M A :=
  self <- acquire lock ;;
  try_finally body (release self).

Definition _load_adata (library layer : pystr) : M AnnData :=
  p <- _adata_path library ;;
  emit (EvRead p) ;;
  let adata := sc_read X p in
  if negb (str_eqb layer (py "X")) then
    if negb (existsb (str_eqb layer) (layers adata))
    then raise (RenderError LAYER_NOT_FOUND)
    else ret adata
  else ret adata.

Definition _check_gene_exists (adata : AnnData) (gene : pystr) : M unit :=
  let gene_in_var := existsb (str_eqb gene) (var_names adata) in
  let gene_in_obs := existsb (str_eqb gene) (obs_columns adata) in
  let gene_in_raw :=
    match raw_var_names adata with
    | Some names => existsb (str_eqb gene) names
    | None => false
    end in
  if negb (gene_in_var || gene_in_obs || gene_in_raw)
  then raise (RenderError GENE_NOT_FOUND)
  else ret tt.

Definition _default_point_size (n_obs : Z) : Z :=
  if n_obs <=? 30000 then 50
  else if n_obs <=? 80000 then 30
  else if n_obs <=? 150000 then 18
  else 10.

Definition rewrite_file (p : path) (now n : Z) (f : file) : file :=
  if path_eqb (f_path f) p then mkFile (f_path f) now n (f_undeletable f) else f.

(** [fig.savefig(out_path, ...)] writing [n] bytes. *)
Definition savefig (p : path) (n : Z) : M unit :=
  emit (EvSavefig p) ;;
  now <- time_time ;;
  fs <- gets w_files ;;
  there <- gets (is_file p) ;;
  if there then set_files (map (rewrite_file p now n) fs)
  else set_files (fs ++ [mkFile p now n false]).

Definition _draw (library gene layer basis : pystr) (out_path : path)
  (fmt : format) (dpi : option Z) : M unit :=
  adata <- _load_adata library layer ;;
  _check_gene_exists adata gene ;;
  mkdir_p (parent out_path) ;;
  let size := _default_point_size (n_obs adata) in
  match fmt with
  | pdf => savefig out_path (savefig_len X adata gene fmt None size)
  | _ =>
      match dpi with
      | None => raise (RenderError BAD_INPUT)
      | Some d =>
          if d <=? 0 then raise (RenderError BAD_INPUT)
          else savefig out_path (savefig_len X adata gene fmt (Some d) size)
      end
  end.

(** [library or _pick_default_library()] *)
Definition library_or_default (library : option pystr) : M pystr :=
  match library with
  | Some (c :: l) => ret (c :: l)
  | _ => _pick_default_library
  end.

Definition or_default {A} (d : A) (o : option A) : A :=
  match o with Some a => a | None => d end.

(** The keyword arguments [layer], [basis] and [dpi] are [None] when the
    caller leaves them to their defaults. *)
Definition ensure_plot_png (gene : pystr) (library layer basis : option pystr)
  (dpi : option Z) : M RenderResult :=
  let layer := or_default (DEFAULT_LAYER cfg) layer in
  let basis := or_default (DEFAULT_BASIS cfg) basis in
  let dpi := or_default (PLOT_PNG_DPI cfg) dpi in
  gene <- lift (_safe_gene gene) ;;
  library <- library_or_default library ;;
  let out_path := path_div (PNG_DIR cfg) (gene ++ py ".png") in
  let lock_path := path_div (LOCK_DIR cfg) (gene ++ py ".plot_png.lock") in
  hit <- path_exists out_path ;;
  if hit then ret (mkRenderResult gene out_path true)
  else
    with_FileLock (new_FileLock lock_path)
      (hit <- path_exists out_path ;;
       if hit then ret (mkRenderResult gene out_path true)
       else
         prune_cache_if_needed None None 0 ;;
         _draw library gene layer basis out_path png (Some dpi) ;;
         ret (mkRenderResult gene out_path false)).

Definition ensure_export_pdf (gene : pystr) (library layer basis : option pystr)
  : M RenderResult :=
  let layer := or_default (DEFAULT_LAYER cfg) layer in
  let basis := or_default (DEFAULT_BASIS cfg) basis in
  gene <- lift (_safe_gene gene) ;;
  library <- library_or_default library ;;
  let out_path := path_div (PDF_DIR cfg) (gene ++ py ".pdf") in
  let lock_path := path_div (LOCK_DIR cfg) (gene ++ py ".export_pdf.lock") in
  hit <- path_exists out_path ;;
  if hit then ret (mkRenderResult gene out_path true)
  else
    with_FileLock (new_FileLock lock_path)
      (hit <- path_exists out_path ;;
       if hit then ret (mkRenderResult gene out_path true)
       else
         prune_cache_if_needed None None 0 ;;
         _draw library gene layer basis out_path pdf None ;;
         ret (mkRenderResult gene out_path false)).

Definition ensure_export_tiff (gene : pystr) (dpi : Z)
  (library layer basis : option pystr) : M RenderResult :=
  let layer := or_default (DEFAULT_LAYER cfg) layer in
  let basis := or_default (DEFAULT_BASIS cfg) basis in
  gene <- lift (_safe_gene gene) ;;
  library <- library_or_default library ;;
  if negb (existsb (Z.eqb dpi) ALLOWED_EXPORT_DPI)
  then raise (RenderError BAD_INPUT)
  else
    let out_path :=
      path_div (TIFF_DIR cfg) (gene ++ py "_" ++ str_of_int dpi ++ py ".tiff") in
    let lock_path :=
      path_div (LOCK_DIR cfg)
               (gene ++ py ".export_tiff_" ++ str_of_int dpi ++ py ".lock") in
    hit <- path_exists out_path ;;
    if hit then ret (mkRenderResult gene out_path true)
    else
      with_FileLock (new_FileLock lock_path)
        (hit <- path_exists out_path ;;
         if hit then ret (mkRenderResult gene out_path true)
         else
           prune_cache_if_needed None None 0 ;;
           _draw library gene layer basis out_path tiff (Some dpi) ;;
           ret (mkRenderResult gene out_path false)).

(* ================================================================= *)
(** ** Concurrent calls for one artifact *)

(** What identifies an artifact, once the preamble of an [ensure_*]
    function has run: the sanitised key, the two paths derived from it,
    the format and the dpi handed to [_draw]. *)
Record artifact := mkArtifact {
  a_gene : pystr;
  a_out : path;
  a_lock : path;
  a_fmt : format;
  a_dpi : option Z
}.

Definition plot_png_artifact (gene : pystr) (dpi : Z) : artifact :=
  mkArtifact gene
    (path_div (PNG_DIR cfg) (gene ++ py ".png"))
    (path_div (LOCK_DIR cfg) (gene ++ py ".plot_png.lock"))
    png (Some dpi).

Definition export_pdf_artifact (gene : pystr) : artifact :=
  mkArtifact gene
    (path_div (PDF_DIR cfg) (gene ++ py ".pdf"))
    (path_div (LOCK_DIR cfg) (gene ++ py ".export_pdf.lock"))
    pdf None.

Definition export_tiff_artifact (gene : pystr) (dpi : Z) : artifact :=
  mkArtifact gene
    (path_div (TIFF_DIR cfg) (gene ++ py "_" ++ str_of_int dpi ++ py ".tiff"))
    (path_div (LOCK_DIR cfg)
              (gene ++ py ".export_tiff_" ++ str_of_int dpi ++ py ".lock"))
    tiff (Some dpi).

(** The arguments of one call that are not part of the identity. *)
Record request := mkRequest {
  r_library : pystr;
  r_layer : pystr;
  r_basis : pystr
}.

(** Where a call stands in the body shared by the three [ensure_*]
    functions (line numbers of [ensure_plot_png]). *)
Inductive pc :=
| AtCheck                                   (* 242: out_path.exists() *)
| AtEnter                                   (* 245: acquire: mkdir, start *)
| AtSpin (self : FileLock) (start : Z)      (* 93: one round of the loop *)
| AtRecheck (self : FileLock)               (* 246: out_path.exists() *)
| AtPrune (self : FileLock)                 (* 250: prune_cache_if_needed() *)
| AtDraw (self : FileLock)                  (* 252: _draw(...) *)
| AtExit (self : FileLock) (r : exn + RenderResult)  (* __exit__: release *)
| Done (r : exn + RenderResult).

(** What a step did, for the counters of the system. *)
Inductive note := Quiet | DrawFailed | DrawSucceeded.

Definition hit_result (a : artifact) : RenderResult :=
  mkRenderResult (a_gene a) (a_out a) true.

Definition fresh_result (a : artifact) : RenderResult :=
  mkRenderResult (a_gene a) (a_out a) false.

(** One atomic step of a call. A sleeping call does not move the clock
    itself: time passes by the [Tick] action below. *)
Definition call_step (a : artifact) (rq : request) (p : pc) (w : world)
  : pc * note * world :=
  match p with
  | AtCheck =>
      match path_exists (a_out a) w with
      | (inr true, w') => (Done (inr (hit_result a)), Quiet, w')
      | (inr false, w') => (AtEnter, Quiet, w')
      | (inl e, w') => (Done (inl e), Quiet, w')
      end
  | AtEnter =>
      match (mkdir_p (parent (a_lock a)) ;; time_time) w with
      | (inr start, w') => (AtSpin (new_FileLock (a_lock a)) start, Quiet, w')
      | (inl e, w') => (Done (inl e), Quiet, w')
      end
  | AtSpin self start =>
      match try_lock self w with
      | (inr (Some fd), w') => (AtRecheck (set_fd self (Some fd)), Quiet, w')
      | (inr None, w') =>
          if timeout_s self <? w_now w' - start
          then (Done (inl (RenderError LOCK_TIMEOUT)), Quiet, w')
          else (AtSpin self start, Quiet, w')
      | (inl e, w') => (Done (inl e), Quiet, w')
      end
  | AtRecheck self =>
      match path_exists (a_out a) w with
      | (inr true, w') => (AtExit self (inr (hit_result a)), Quiet, w')
      | (inr false, w') => (AtPrune self, Quiet, w')
      | (inl e, w') => (AtExit self (inl e), Quiet, w')
      end
  | AtPrune self =>
      match prune_cache_if_needed None None 0 w with
      | (inr _, w') => (AtDraw self, Quiet, w')
      | (inl e, w') => (AtExit self (inl e), Quiet, w')
      end
  | AtDraw self =>
      match _draw (r_library rq) (a_gene a) (r_layer rq) (r_basis rq)
                  (a_out a) (a_fmt a) (a_dpi a) w with
      | (inr _, w') => (AtExit self (inr (fresh_result a)), DrawSucceeded, w')
      | (inl e, w') => (AtExit self (inl e), DrawFailed, w')
      end
  | AtExit self r =>
      match release self w with
      | (inr _, w') => (Done r, Quiet, w')
      | (inl e, w') => (Done (inl e), Quiet, w')
      end
  | Done r => (Done r, Quiet, w)
  end.

(** [N] calls for the same artifact over one world. [s_draws] counts the
    invocations of [_draw], [s_drawn] those that returned normally. *)
Record system := mkSystem {
  s_world : world;
  s_calls : list (request * pc);
  s_draws : nat;
  s_drawn : nat
}.

Inductive action :=
| Run (i : nat)          (* call number i takes its next step *)
| Tick (ms : Z).         (* time passes *)

Definition is_done (p : pc) : bool :=
  match p with Done _ => true | _ => false end.

Fixpoint set_nth {A} (i : nat) (x : A) (l : list A) : list A :=
  match l, i with
  | [], _ => []
  | _ :: t, O => x :: t
  | y :: t, S i' => y :: set_nth i' x t
  end.

Definition advance (ms : Z) (w : world) : world :=
  mkWorld (w_files w) (w_dirs w) (w_fds w) (w_now w + ms)
          (w_default_lib w) (w_log w).

(** The system after an action; [None] when the action is not enabled. *)
Definition sys_step (a : artifact) (act : action) (s : system) : option system :=
  match act with
  | Tick ms =>
      if 0 <? ms
      then Some (mkSystem (advance ms (s_world s)) (s_calls s)
                          (s_draws s) (s_drawn s))
      else None
  | Run i =>
      match nth_error (s_calls s) i with
      | None => None
      | Some (rq, p) =>
          if is_done p then None
          else
            let '(p', n, w') := call_step a rq p (s_world s) in
            Some (mkSystem w' (set_nth i (rq, p') (s_calls s))
                    (match n with Quiet => s_draws s | _ => S (s_draws s) end)
                    (match n with DrawSucceeded => S (s_drawn s)
                                | _ => s_drawn s end))
      end
  end.

Fixpoint run (a : artifact) (sched : list action) (s : system) : option system :=
  match sched with
  | [] => Some s
  | act :: rest =>
      match sys_step a act s with
      | Some s' => run a rest s'
      | None => None
      end
  end.

(** All calls issued, none started. *)
Definition issue (w : world) (rqs : list request) : system :=
  mkSystem w (map (fun rq => (rq, AtCheck)) rqs) 0 0.

Definition reachable (a : artifact) (w : world) (rqs : list request)
  (s : system) : Prop :=
  exists sched, run a sched (issue w rqs) = Some s.

(** The calls inside the region the artifact's lock protects. *)
Definition in_region (p : pc) : bool :=
  match p with
  | AtRecheck _ | AtPrune _ | AtDraw _ | AtExit _ _ => true
  | _ => false
  end.

Definition is_fresh (p : pc) : bool :=
  match p with
  | Done (inr r) | AtExit _ (inr r) => negb (cache_hit r)
  | _ => false
  end.

End Program.

(* MARK-CODE *)
(* ================================================================= *)
(** ** Vocabulary of the statements *)

(** The character the sanitisation is expected to write for [ch]: [ch]
    itself when it is alphanumeric or one of [.] [_] [-], else [_]. *)
Definition written (X : externals) (ch : pychar) : pychar :=
  if (isalnum X ch || (ch =? 46) || (ch =? 95) || (ch =? 45))%N then ch else 95%N.

(** The world [w] with [evs] (newest first) added to its log and nothing
    else changed. *)
Definition with_log (evs : list event) (w : world) : world :=
  mkWorld (w_files w) (w_dirs w) (w_fds w) (w_now w) (w_default_lib w)
          (evs ++ w_log w).

(** The events a computation that took [w] to [w'] has logged. *)
Definition new_events (w w' : world) : list event :=
  firstn (List.length (w_log w') - List.length (w_log w)) (w_log w').

(** Every run of [c] relates the world it starts in to the one it ends
    in by [T], whatever it returns or raises. *)
Definition respects {A} (T : world -> world -> Prop) (c : M A) : Prop :=
  forall w, T w (snd (c w)).

(** [c] only returns values that satisfy [Q]. *)
Definition returns {A} (c : M A) (Q : A -> Prop) : Prop :=
  forall w a w', c w = (inr a, w') -> Q a.

(** Only the log changes, by events that satisfy [P]. *)
Definition only_logs (P : event -> bool) (w w' : world) : Prop :=
  exists evs, w' = with_log evs w /\ forallb P evs = true.

(** The log grows by events that satisfy [P]. *)
Definition logs (P : event -> bool) (w w' : world) : Prop :=
  exists evs, w_log w' = evs ++ w_log w /\ forallb P evs = true.

(** Nothing happens to what is at [p]. *)
Definition keeps (p : path) (w w' : world) : Prop :=
  find_file p w' = find_file p w /\ is_dir p w' = is_dir p w.

(** Nothing appears at [p]. *)
Definition no_new (p : path) (w w' : world) : Prop :=
  exists_in p w' = true -> exists_in p w = true.

(** The descriptor table is as it was. *)
Definition same_fds (w w' : world) : Prop := w_fds w' = w_fds w.

(** Events of a scan: existence tests, listings, [stat] calls. *)
Definition is_scan (e : event) : bool :=
  match e with
  | EvExists _ | EvList _ | EvStat _ => true
  | _ => false
  end.

(** [c] is a scan that reads [f] off the world: it never raises, logs
    scan events only and changes nothing else. *)
Definition scans {A} (c : M A) (f : world -> A) : Prop :=
  forall w, exists evs,
    c w = (inr (f w), with_log evs w) /\ forallb is_scan evs = true.

(** What a loop over [_iter_files(dirs)] computes from the files of [w]
    when its body turns [s] into [g s p w] at the file [p]. *)
Definition fold_files {S} (g : S -> path -> world -> S) (dirs : list path)
  (w : world) (s : S) : S :=
  fold_left
    (fun s d => if exists_in d w
                then fold_left (fun s p => g s p w) (files_under d w) s
                else s)
    dirs s.

(** The bytes under [dirs], as the files of [w] give them. *)
Definition total_size (dirs : list path) (w : world) : Z :=
  fold_files
    (fun total p w =>
       match find_file p w with Some f => total + f_size f | None => total end)
    dirs w 0.

(** The entries of the files under [dirs], in scan order. *)
Definition inventory (dirs : list path) (w : world) : list (Z * Z * path) :=
  fold_files
    (fun entries p w =>
       match find_file p w with
       | Some f => entries ++ [(f_mtime f, f_size f, p)]
       | None => entries
       end)
    dirs w [].

(** Removing the file at [p] would be refused in [w]. A file that is
    not there is not refused: [unlink(missing_ok=True)] returns normally. *)
Definition refused (w : world) (p : path) : bool :=
  match find_file p w with
  | Some f => f_undeletable f
  | None => false
  end.

(** The entries of [es] whose removal is not refused. *)
Definition removable (w : world) (es : list (Z * Z * path)) : list (Z * Z * path) :=
  filter (fun e => negb (refused w (snd e))) es.

(** The bytes the removable entries of [es] stand for. *)
Definition freed (w : world) (es : list (Z * Z * path)) : Z :=
  fold_right Z.add 0 (map (fun e => snd (fst e)) (removable w es)).

(** The files [fs] without those at one of the paths [ps]. *)
Definition without (ps : list path) (fs : list file) : list file :=
  filter (fun f => negb (existsb (path_eqb (f_path f)) ps)) fs.

(** The world after the deletion loop went through [tried]. *)
Definition after_unlinks (w : world) (tried : list (Z * Z * path)) : world :=
  mkWorld (without (map snd (removable w tried)) (w_files w))
          (w_dirs w) (w_fds w) (w_now w) (w_default_lib w)
          (rev (map (fun e => EvUnlink (snd e)) tried) ++ w_log w).

(** The paths of the [unlink] calls among [evs], oldest first. *)
Definition unlink_attempts (evs : list event) : list path :=
  rev (flat_map (fun e => match e with EvUnlink p => [p] | _ => [] end) evs).

(** Oldest first: no entry is newer than one that follows it. *)
Definition oldest_first (es : list entry) : Prop :=
  StronglySorted (fun a b => e_mtime a <= e_mtime b) es.

(** The world after [mkdir_p d]. *)
Definition after_mkdir (d : path) (w : world) : world :=
  mkWorld (w_files w)
          (w_dirs w
           ++ filter (fun q => negb (existsb (path_eqb q) (w_dirs w))) (prefixes d))
          (w_fds w) (w_now w) (w_default_lib w) (EvMkdir d :: w_log w).

(** The world after the lock file [p] was created and its payload
    written. *)
Definition after_lock (X : externals) (p : path) (w : world) : world :=
  mkWorld (map (grow p (lock_payload_len X (w_now w)))
               (w_files w ++ [mkFile p (w_now w) 0 false]))
          (w_dirs w) ((fresh_fd w, p) :: w_fds w) (w_now w) (w_default_lib w)
          (EvWrite (fresh_fd w) :: EvOpenExcl p :: w_log w).

(** The world after a release of the lock file [p]: the descriptor, if
    any, is closed and the removal of [p] was attempted. *)
Definition after_release (fd : option Z) (p : path) (w : world) : world :=
  mkWorld (if refused w p then w_files w else without [p] (w_files w))
          (w_dirs w)
          (match fd with
           | Some fd => filter (fun e => negb (Z.eqb (fst e) fd)) (w_fds w)
           | None => w_fds w
           end)
          (w_now w) (w_default_lib w)
          (EvUnlink p
           :: match fd with Some fd => [EvClose fd] | None => [] end
           ++ w_log w).

(** The paths of the exclusive-create attempts among [evs], oldest
    first. *)
Definition open_attempts (evs : list event) : list path :=
  rev (flat_map (fun e => match e with EvOpenExcl p => [p] | _ => [] end) evs).


(** The three kinds of artifact, each with the quality parameter its
    [ensure_*] function is given. *)
Inductive kind :=
| PlotPng (dpi : option Z)
| ExportPdf
| ExportTiff (dpi : Z).

(** [ensure(kind, key, ...)]: the entry point of each kind. *)
Definition ensure (X : externals) (cfg : config) (k : kind) (gene : pystr)
  (library layer basis : option pystr) : M RenderResult :=
  match k with
  | PlotPng dpi => ensure_plot_png X cfg gene library layer basis dpi
  | ExportPdf => ensure_export_pdf X cfg gene library layer basis
  | ExportTiff dpi => ensure_export_tiff X cfg gene dpi library layer basis
  end.

(** The artifact a call of kind [k] is about, once the key is sanitised. *)
Definition artifact_of (cfg : config) (k : kind) (key : pystr) : artifact :=
  match k with
  | PlotPng dpi => plot_png_artifact cfg key (or_default (PLOT_PNG_DPI cfg) dpi)
  | ExportPdf => export_pdf_artifact cfg key
  | ExportTiff dpi => export_tiff_artifact cfg key dpi
  end.

(** The quality parameter of [k] is one its function accepts. *)
Definition supported (k : kind) : bool :=
  match k with
  | ExportTiff dpi => existsb (Z.eqb dpi) ALLOWED_EXPORT_DPI
  | _ => true
  end.

(** The body the three [ensure_*] functions share, from the first
    existence test on. *)
Definition ensure_cached (X : externals) (cfg : config) (a : artifact)
  (rq : request) : M RenderResult :=
  hit <- path_exists (a_out a) ;;
  if hit then ret (hit_result a)
  else
    with_FileLock X (new_FileLock (a_lock a))
      (hit <- path_exists (a_out a) ;;
       if hit then ret (hit_result a)
       else
         prune_cache_if_needed X cfg None None 0 ;;
         _draw X cfg (r_library rq) (a_gene a) (r_layer rq) (r_basis rq)
               (a_out a) (a_fmt a) (a_dpi a) ;;
         ret (fresh_result a)).

(** Events that only look: the environment, existence tests, listings. *)
Definition is_probe (e : event) : bool :=
  match e with
  | EvGetenv _ | EvExists _ | EvList _ => true
  | _ => false
  end.

(** The events of the default-library lookup: the environment variable
    and the data directory. *)
Definition is_library_lookup (cfg : config) (e : event) : bool :=
  match e with
  | EvGetenv _ => true
  | EvExists p | EvList p => path_eqb p (DATA_DIR cfg)
  | _ => false
  end.

(** Events that touch the file system at all. *)
Definition is_fs_access (e : event) : bool :=
  match e with
  | EvGetenv _ | EvSleep _ => false
  | _ => true
  end.

(** The world after [savefig p n]. *)
Definition after_savefig (p : path) (n : Z) (w : world) : world :=
  mkWorld (if is_file p w
           then map (rewrite_file p (w_now w) n) (w_files w)
           else w_files w ++ [mkFile p (w_now w) n false])
          (w_dirs w) (w_fds w) (w_now w) (w_default_lib w)
          (EvSavefig p :: w_log w).

(** Events of loading a data set: the existence test and the read. *)
Definition is_data_read (e : event) : bool :=
  match e with
  | EvExists _ | EvRead _ => true
  | _ => false
  end.

(** The artifact file lies directly in one of the cache directories and
    its lock file directly in the lock directory, under another name than
    the prune lock. *)
Definition well_placed (cfg : config) (a : artifact) : Prop :=
  (exists d n, In d (CACHE_DIRS cfg) /\ a_out a = d ++ [n]) /\
  (exists m, a_lock a = LOCK_DIR cfg ++ [m] /\ m <> py "_prune.lock").

(** The calls whose place satisfies [P]. *)
Definition count_pcs (P : pc -> bool) (calls : list (request * pc)) : nat :=
  List.length (filter (fun c => P (snd c)) calls).

(** The call has passed the second existence test without a hit and has
    not yet come back from [_draw]. *)
Definition rendering (p : pc) : bool :=
  match p with
  | AtPrune _ | AtDraw _ => true
  | _ => false
  end.

(** The lock object a call carries is the one of the artifact. *)
Definition pc_ok (a : artifact) (p : pc) : Prop :=
  match p with
  | AtSpin self _ | AtRecheck self | AtPrune self | AtDraw self
  | AtExit self _ => lock_path self = a_lock a
  | _ => True
  end.

(** What holds in every state of concurrent calls for one artifact: at
    most one call is inside the locked region, and then the lock file
    exists; while a call is between the missed second test and the end of
    its [_draw] the artifact does not exist; at most one [_draw] has
    returned normally, and then the artifact exists; no more calls report
    a fresh render than [_draw] calls have returned normally. *)
Definition safe (a : artifact) (s : system) : Prop :=
  Forall (fun c => pc_ok a (snd c)) (s_calls s) /\
  (count_pcs in_region (s_calls s) <= 1)%nat /\
  (count_pcs in_region (s_calls s) = 1%nat ->
   is_file (a_lock a) (s_world s) = true) /\
  (count_pcs rendering (s_calls s) = 1%nat ->
   exists_in (a_out a) (s_world s) = false) /\
  (s_drawn s <= 1)%nat /\
  (s_drawn s = 1%nat -> exists_in (a_out a) (s_world s) = true) /\
  (count_pcs is_fresh (s_calls s) <= s_drawn s)%nat /\
  (s_drawn s <= s_draws s)%nat.

(** A truth value as a number of calls. *)
Definition b2n (b : bool) : nat := if b then 1%nat else 0%nat.

(** The places of the calls and the two counters of a run. *)
Definition outcome (o : option system) : option (list pc * nat * nat) :=
  option_map (fun s => (map snd (s_calls s), s_draws s, s_drawn s)) o.

(** The data sets read according to [evs], oldest first: one read per
    call of [_draw] that found its data set. *)
Definition reads (evs : list event) : list path :=
  rev (flat_map (fun e => match e with EvRead p => [p] | _ => [] end) evs).

(** A call that runs alone: [n] steps of it, nothing in between. *)
Fixpoint alone (X : externals) (cfg : config) (a : artifact) (rq : request)
  (n : nat) (p : pc) (w : world) : pc * world :=
  match n with
  | O => (p, w)
  | S n' =>
      let '(p', _, w') := call_step X cfg a rq p w in
      alone X cfg a rq n' p' w'
  end.

(** The bytes the entries [es] stand for. *)
Definition sizes (es : list (Z * Z * path)) : Z :=
  fold_right Z.add 0 (map (fun e => snd (fst e)) es).

(** The entry of the file at [p], if there is one. *)
Definition entry_at (w : world) (p : path) : list (Z * Z * path) :=
  match find_file p w with
  | Some f => [(f_mtime f, f_size f, p)]
  | None => []
  end.

(** The entries a scan of the one directory [d] yields. *)
Definition entries_in (d : path) (w : world) : list (Z * Z * path) :=
  if exists_in d w then flat_map (entry_at w) (files_under d w) else [].

(** The entry is not at one of the paths [ps]. *)
Definition off (ps : list path) (e : Z * Z * path) : bool :=
  negb (existsb (path_eqb (snd e)) ps).

(* MARK-VOCAB *)
(* ================================================================= *)
(** ** Sample data for the worked examples *)

Definition GiB : Z := 1024 ^ 3.

(** A data set with one layer and one gene. *)
Definition sample_adata : AnnData :=
  mkAnnData [py "lognorm"] [py "Gfap"] [] None 85000.

Definition sample_externals : externals :=
  mkExternals (fun _ => false) (fun _ => 30) (fun _ => sample_adata)
              (fun _ _ _ _ _ => 1000).

Definition sample_config : config :=
  mkConfig [py "srv"; py "data"] [py "srv"; py "figures"]
           (py "lognorm") (py "spatial") 300 10.

Definition sample_dirs : list path :=
  prefixes (PNG_DIR sample_config)
  ++ [PDF_DIR sample_config; TIFF_DIR sample_config;
      LOCK_DIR sample_config; DATA_DIR sample_config].

Definition in_dir (d : path) (n : string) : path := d ++ [py n].

Definition world_of (fs : list file) : world :=
  mkWorld fs sample_dirs [] 1000 None [].

(** Three cached figures of 4, 3 and 2 GiB, written at the times 10, 20
    and 30, listed in an order that is not that of their ages. *)
Definition oldest_png : path := in_dir (PNG_DIR sample_config) "a.png".
Definition middle_pdf : path := in_dir (PDF_DIR sample_config) "b.pdf".
Definition newest_png : path := in_dir (PNG_DIR sample_config) "c.png".

Definition three_figures : world :=
  world_of [ mkFile newest_png 30 (2 * GiB) false;
             mkFile oldest_png 10 (4 * GiB) false;
             mkFile middle_pdf 20 (3 * GiB) false ].

(** The same cache when the oldest figure cannot be removed. *)
Definition oldest_pinned : world :=
  world_of [ mkFile newest_png 30 (2 * GiB) false;
             mkFile oldest_png 10 (4 * GiB) true;
             mkFile middle_pdf 20 (3 * GiB) false ].

(** A cache that holds a single figure of ten bytes. *)
Definition one_figure : world :=
  world_of [ mkFile oldest_png 10 10 false ].


(** What the claim on the pruned files says of a call that found the
    candidates [cands] and the total [total]: the files it deleted are
    those of [pre], the shortest prefix of [cands] whose sizes bring the
    total within [max_bytes]. *)
Definition shortest_sufficient_prefix (cands pre : list entry)
  (total max_bytes : Z) : Prop :=
  (exists rest, cands = pre ++ rest) /\
  total - fold_right Z.add 0 (map e_size pre) <= max_bytes /\
  (forall k, (k < List.length pre)%nat ->
             max_bytes < total - fold_right Z.add 0 (map e_size (firstn k pre))).

(** The figure and the data set of the gene [Gfap]. *)
Definition gfap_png : path := in_dir (PNG_DIR sample_config) "Gfap.png".
Definition sham_h5ad : path := in_dir (DATA_DIR sample_config) "sham.h5ad".

(** An empty cache next to one data set. *)
Definition with_data : world := world_of [ mkFile sham_h5ad 5 77 false ].

(** The figure of [Gfap] is cached and the data set is there. *)
Definition gfap_cached : world :=
  world_of [ mkFile gfap_png 40 1000 false; mkFile sham_h5ad 5 77 false ].

(** The figure of [Gfap] is cached, but the data directory is gone and
    [DEFAULT_LIB] is not set. *)
Definition gfap_cached_no_data : world :=
  mkWorld [ mkFile gfap_png 40 1000 false ]
          (prefixes (PNG_DIR sample_config)
           ++ [PDF_DIR sample_config; TIFF_DIR sample_config;
               LOCK_DIR sample_config])
          [] 1000 None [].

(** Two calls that ask for the same figure from the data set [sham]. *)
Definition sham_request : request :=
  mkRequest (py "sham") (py "lognorm") (py "spatial").

Definition gfap_artifact : artifact :=
  artifact_of sample_config (PlotPng None) (py "Gfap").

(** The gene [Nope] is not in the data set. *)
Definition nope_artifact : artifact :=
  artifact_of sample_config (PlotPng None) (py "Nope").

(** Both calls miss the first test; call 0 takes the lock, prunes, renders
    and releases while call 1 polls; call 1 then takes the lock. *)
Definition interleaving : list action :=
  [Run 0; Run 1; Run 0; Run 0; Run 1; Run 0; Run 0; Run 0; Run 0;
   Run 1; Run 1; Run 1; Run 1; Run 1]%nat.

Definition run_or_start (a : artifact) (sched : list action) (s : system)
  : system :=
  match run sample_externals sample_config a sched s with
  | Some s' => s'
  | None => s
  end.

(** The state the interleaving leads to when both calls ask for [Gfap]. *)
Definition after_two_gfap_calls : system :=
  run_or_start gfap_artifact (firstn 12 interleaving)
    (issue with_data [sham_request; sham_request]).


(** The data set is there, the figure of [Gfap] is not, and a lock file
    for it has been left behind. *)
Definition gfap_lock_left : world :=
  world_of [ mkFile sham_h5ad 5 77 false;
             mkFile (a_lock gfap_artifact) 900 30 false ].

(* MARK-FIXTURES *)
(* ================================================================= *)
(** * Properties *)

(* ----------------------------------------------------------------- *)
(** ** Strings and paths *)

Lemma str_eqb_eq (a b : pystr) : str_eqb a b = true <-> a = b.
Proof.
  revert b; induction a as [|x a IH]; intros [|y b]; simpl; split;
    try congruence; try reflexivity.
  - intros H. apply andb_true_iff in H as [H1 H2].
    apply N.eqb_eq in H1. apply IH in H2. congruence.
  - intros H. injection H as -> ->. rewrite N.eqb_refl. simpl. now apply IH.
Qed.

Lemma str_eqb_refl (a : pystr) : str_eqb a a = true.
Proof. now apply str_eqb_eq. Qed.

Lemma path_eqb_eq (a b : path) : path_eqb a b = true <-> a = b.
Proof.
  revert b; induction a as [|x a IH]; intros [|y b]; simpl; split;
    try congruence; try reflexivity.
  - intros H. apply andb_true_iff in H as [H1 H2].
    apply str_eqb_eq in H1. apply IH in H2. congruence.
  - intros H. injection H as -> ->. rewrite str_eqb_refl. simpl. now apply IH.
Qed.

Lemma path_eqb_refl (a : path) : path_eqb a a = true.
Proof. now apply path_eqb_eq. Qed.

Lemma path_eqb_neq (a b : path) : path_eqb a b = false <-> a <> b.
Proof.
  split.
  - intros H E. apply path_eqb_eq in E. congruence.
  - intros H. destruct (path_eqb a b) eqn:E; [|reflexivity].
    apply path_eqb_eq in E. contradiction.
Qed.

Lemma path_eqb_sym (a b : path) : path_eqb a b = path_eqb b a.
Proof.
  destruct (path_eqb a b) eqn:E.
  - apply path_eqb_eq in E. subst. now rewrite path_eqb_refl.
  - symmetry. apply path_eqb_neq. apply path_eqb_neq in E. congruence.
Qed.

(* ----------------------------------------------------------------- *)
(** ** Key sanitisation *)

Section Sanitisation.

Context (X : externals).

Lemma kept_cases (ch : pychar) :
  kept X ch = (isalnum X ch || (ch =? 46) || (ch =? 95) || (ch =? 45))%N.
Proof.
  unfold kept. cbn. rewrite orb_false_r. now rewrite !orb_assoc.
Qed.

Lemma kept_written (ch : pychar) : kept X (written X ch) = true.
Proof.
  unfold written. rewrite <- kept_cases.
  destruct (kept X ch) eqn:E; [exact E|].
  rewrite kept_cases. reflexivity.
Qed.

Lemma kept_not_separator (ch : pychar) :
  kept X ch = true -> ch <> 47%N /\ ch <> 92%N.
Proof.
  intros H. split; intros ->; rewrite kept_cases in H; cbn in H; discriminate.
Qed.

Lemma safe_gene_value (raw : pystr) :
  strip raw <> [] -> _safe_gene X raw = inr (map (written X) (strip raw)).
Proof.
  intros H. unfold _safe_gene.
  destruct (str_eqb (strip raw) []) eqn:E.
  - apply str_eqb_eq in E. contradiction.
  - f_equal. apply map_ext. intros ch. unfold written.
    now rewrite kept_cases.
Qed.

Lemma safe_gene_empty (raw : pystr) :
  strip raw = [] -> _safe_gene X raw = inl (RenderError BAD_INPUT).
Proof. intros H. unfold _safe_gene. now rewrite H. Qed.

(** Every key [_safe_gene] accepts: non-empty, made of kept characters. *)
Lemma safe_gene_key (raw key : pystr) :
  _safe_gene X raw = inr key ->
  key <> [] /\ Forall (fun ch => kept X ch = true) key.
Proof.
  intros H. destruct (strip raw) as [|c s] eqn:E.
  - rewrite safe_gene_empty in H by exact E. discriminate.
  - rewrite safe_gene_value in H by (rewrite E; discriminate).
    injection H as <-. rewrite E. split; [discriminate|].
    apply Forall_forall. intros ch Hin. apply in_map_iff in Hin as [x [<- _]].
    apply kept_written.
Qed.

(** C9: [_safe_gene] strips the key, rejects with [BAD_INPUT] what strips
    to the empty string and otherwise keeps each alphanumeric character
    and each of [.], [_], [-] in place and writes [_] for every other
    character; an accepted key is therefore non-empty and free of the path
    separators [/] and [\]; the key ["a/b"] becomes ["a_b"]. *)
Theorem safe_gene_sanitises (raw : pystr) :
  match _safe_gene X raw with
  | inl e => e = RenderError BAD_INPUT /\ strip raw = []
  | inr key =>
      strip raw <> [] /\ key <> [] /\
      List.length key = List.length (strip raw) /\
      (forall i, nth_error key i = option_map (written X) (nth_error (strip raw) i)) /\
      ~ In 47%N key /\ ~ In 92%N key
  end
  /\ _safe_gene X (py "a/b") = inr (py "a_b").
Proof.
  split; [|reflexivity].
  destruct (strip raw) as [|c s] eqn:E.
  - rewrite safe_gene_empty by exact E. now split.
  - assert (Hne : strip raw <> []) by (rewrite E; discriminate).
    pose proof (safe_gene_key raw) as Hk.
    rewrite safe_gene_value in * by exact Hne. rewrite E in *.
    destruct (Hk _ eq_refl) as [Hk1 Hk2].
    repeat split.
    + discriminate.
    + exact Hk1.
    + apply length_map.
    + intros i. apply nth_error_map.
    + intros Hin. rewrite Forall_forall in Hk2.
      apply Hk2 in Hin. apply kept_not_separator in Hin. tauto.
    + intros Hin. rewrite Forall_forall in Hk2.
      apply Hk2 in Hin. apply kept_not_separator in Hin. tauto.
Qed.

End Sanitisation.

(* ----------------------------------------------------------------- *)
(** ** Reasoning about computations *)

Lemma bind_run {A B} (c : M A) (k : A -> M B) (w : world) :
  bind c k w = match c w with
               | (inr a, w') => k a w'
               | (inl e, w') => (inl e, w')
               end.
Proof. reflexivity. Qed.

Lemma with_log_nil (w : world) : with_log [] w = w.
Proof. now destruct w. Qed.

Lemma with_log_app (e1 e2 : list event) (w : world) :
  with_log e1 (with_log e2 w) = with_log (e1 ++ e2) w.
Proof. unfold with_log. cbn. now rewrite app_assoc. Qed.

Lemma new_events_app (evs : list event) (w w' : world) :
  w_log w' = evs ++ w_log w -> new_events w w' = evs.
Proof.
  intros H. unfold new_events. rewrite H, length_app.
  replace (List.length evs + List.length (w_log w) - List.length (w_log w))%nat
    with (List.length evs + 0)%nat by lia.
  rewrite firstn_app_2. cbn. apply app_nil_r.
Qed.

Lemma new_events_with_log (evs : list event) (w : world) :
  new_events w (with_log evs w) = evs.
Proof. now apply new_events_app. Qed.

Section Respects.

Context (T : world -> world -> Prop) {Tpre : PreOrder T}.

Let Trefl : forall w, T w w := fun w => reflexivity w.
Let Ttrans : forall a b c, T a b -> T b c -> T a c :=
  fun a b c => transitivity (x := a) (y := b) (z := c).

Lemma respects_ret {A} (a : A) : respects T (ret a).
Proof. intros w. apply Trefl. Qed.

Lemma respects_raise {A} (e : exn) : respects T (@raise A e).
Proof. intros w. apply Trefl. Qed.

Lemma respects_lift {A} (r : exn + A) : respects T (lift r).
Proof. intros w. apply Trefl. Qed.

Lemma respects_gets {A} (f : world -> A) : respects T (gets f).
Proof. intros w. apply Trefl. Qed.

Lemma respects_bind {A B} (c : M A) (k : A -> M B) :
  respects T c -> (forall a, respects T (k a)) -> respects T (bind c k).
Proof.
  intros Hc Hk w. unfold bind. specialize (Hc w).
  destruct (c w) as [[e|a] w']; cbn in *; [exact Hc|].
  eapply Ttrans; [exact Hc|apply Hk].
Qed.

(** The continuation need only behave on the values [c] can return. *)
Lemma respects_bind_returns {A B} (c : M A) (k : A -> M B) (Q : A -> Prop) :
  respects T c -> returns c Q -> (forall a, Q a -> respects T (k a)) ->
  respects T (bind c k).
Proof.
  intros Hc Hq Hk w. unfold bind. specialize (Hc w). specialize (Hq w).
  destruct (c w) as [[e|a] w']; cbn in *; [exact Hc|].
  eapply Ttrans; [exact Hc|apply Hk; eapply Hq; reflexivity].
Qed.

Lemma respects_try_except {A} (c h : M A) (handled : exn -> bool) :
  respects T c -> respects T h -> respects T (try_except c handled h).
Proof.
  intros Hc Hh w. unfold try_except. specialize (Hc w).
  destruct (c w) as [[e|a] w']; cbn in *; [|exact Hc].
  destruct (handled e); cbn; [|exact Hc].
  eapply Ttrans; [exact Hc|apply Hh].
Qed.

Lemma respects_try_finally {A} (c : M A) (f : M unit) :
  respects T c -> respects T f -> respects T (try_finally c f).
Proof.
  intros Hc Hf w. unfold try_finally. specialize (Hc w).
  destruct (c w) as [r w']; cbn in *. specialize (Hf w').
  destruct (f w') as [[e|u] w'']; cbn in *; eapply Ttrans; eauto.
Qed.

Lemma respects_for_each {A S} (l : list A) (body : S -> A -> M S) (s : S) :
  (forall s x, In x l -> respects T (body s x)) ->
  respects T (for_each l body s).
Proof.
  revert s. induction l as [|x l IH]; intros s Hb; cbn.
  - apply respects_ret.
  - apply respects_bind; [apply Hb; now left|].
    intros s'. apply IH. intros s'' y Hy. apply Hb. now right.
Qed.

End Respects.

#[local] Instance only_logs_pre (P : event -> bool) : PreOrder (only_logs P).
Proof.
  split.
  - intros w. exists []. split; [symmetry; apply with_log_nil|reflexivity].
  - intros a b c [e1 [-> H1]] [e2 [-> H2]]. exists (e2 ++ e1). split.
    + apply with_log_app.
    + rewrite forallb_app. now rewrite H1, H2.
Qed.

#[local] Instance logs_pre (P : event -> bool) : PreOrder (logs P).
Proof.
  split.
  - intros w. now exists [].
  - intros a b c [e1 [E1 H1]] [e2 [E2 H2]]. exists (e2 ++ e1). split.
    + rewrite E2, E1. apply app_assoc.
    + rewrite forallb_app. now rewrite H1, H2.
Qed.

#[local] Instance keeps_pre (p : path) : PreOrder (keeps p).
Proof.
  split.
  - intros w. now split.
  - intros a b c [H1 H2] [H3 H4]. split; congruence.
Qed.

#[local] Instance no_new_pre (p : path) : PreOrder (no_new p).
Proof.
  split.
  - intros w H. exact H.
  - intros a b c H1 H2 H. apply H1, H2, H.
Qed.

#[local] Instance same_fds_pre : PreOrder same_fds.
Proof.
  split.
  - intros w. reflexivity.
  - intros a b c H1 H2. unfold same_fds in *. congruence.
Qed.

Lemma only_logs_logs (P : event -> bool) {A} (c : M A) :
  respects (only_logs P) c -> respects (logs P) c.
Proof.
  intros H w. destruct (H w) as [evs [E F]]. exists evs. now rewrite E.
Qed.

Lemma only_logs_keeps (P : event -> bool) (p : path) {A} (c : M A) :
  respects (only_logs P) c -> respects (keeps p) c.
Proof. intros H w. destruct (H w) as [evs [E F]]. now rewrite E. Qed.

Lemma keeps_no_new (p : path) {A} (c : M A) :
  respects (keeps p) c -> respects (no_new p) c.
Proof.
  intros H w. destruct (H w) as [E F]. unfold no_new, exists_in, is_file.
  now rewrite E, F.
Qed.

Lemma only_logs_same_fds (P : event -> bool) {A} (c : M A) :
  respects (only_logs P) c -> respects same_fds c.
Proof. intros H w. destruct (H w) as [evs [E F]]. now rewrite E. Qed.

Lemma only_logs_weaken (P Q : event -> bool) {A} (c : M A) :
  (forall e, P e = true -> Q e = true) ->
  respects (only_logs P) c -> respects (only_logs Q) c.
Proof.
  intros HPQ H w. destruct (H w) as [evs [E F]]. exists evs. split; [exact E|].
  rewrite forallb_forall in *. auto.
Qed.

Lemma logs_weaken (P Q : event -> bool) {A} (c : M A) :
  (forall e, P e = true -> Q e = true) ->
  respects (logs P) c -> respects (logs Q) c.
Proof.
  intros HPQ H w. destruct (H w) as [evs [E F]]. exists evs. split; [exact E|].
  rewrite forallb_forall in *. auto.
Qed.

Lemma only_logs_emit (P : event -> bool) (e : event) :
  P e = true -> respects (only_logs P) (emit e).
Proof. intros H w. exists [e]. cbn. now rewrite H. Qed.

Ltac pre_order := try (match goal with |- PreOrder _ => typeclasses eauto end).

(** Takes a goal [respects T c] apart along the structure of [c]. *)
Ltac respects_steps :=
  repeat first
    [ apply respects_ret; pre_order
    | apply respects_raise; pre_order
    | apply respects_gets; pre_order
    | apply respects_lift; pre_order
    | apply respects_bind; pre_order; [|intros ?]
    | apply respects_try_except; pre_order
    | apply respects_try_finally; pre_order
    | match goal with
      | |- respects _ (match ?x with _ => _ end) => destruct x
      | |- respects _ (if ?x then _ else _) => destruct x
      end ].

(** Closes the goals [respects_steps] leaves about single events. *)
Ltac only_logs_auto :=
  respects_steps; try (apply only_logs_emit; reflexivity).

Lemma scan_path_exists (p : path) : respects (only_logs is_scan) (path_exists p).
Proof. only_logs_auto. Qed.

Lemma scan_rglob_files (d : path) : respects (only_logs is_scan) (rglob_files d).
Proof. only_logs_auto. Qed.

Lemma scan_stat (p : path) : respects (only_logs is_scan) (stat p).
Proof. only_logs_auto. Qed.

Lemma scan_iter_files {S} (dirs : list path) (body : S -> path -> M S) (s : S) :
  (forall s p, respects (only_logs is_scan) (body s p)) ->
  respects (only_logs is_scan) (_iter_files dirs body s).
Proof.
  intros Hb. unfold _iter_files. apply respects_for_each; pre_order.
  intros s' d _. only_logs_auto.
  apply respects_for_each; pre_order. intros; apply Hb.
Qed.

Lemma scan_total_size_bytes (dirs : list path) :
  respects (only_logs is_scan) (_total_size_bytes dirs).
Proof.
  unfold _total_size_bytes. apply scan_iter_files. intros s p.
  only_logs_auto.
Qed.

(* ----------------------------------------------------------------- *)
(** ** The directory inventory *)

Lemma scans_for_each {A S} (l : list A) (body : S -> A -> M S)
  (g : S -> A -> world -> S) :
  (forall s x w evs, g s x (with_log evs w) = g s x w) ->
  (forall s x, scans (body s x) (g s x)) ->
  forall s, scans (for_each l body s) (fun w => fold_left (fun s x => g s x w) l s).
Proof.
  intros Hg Hb. induction l as [|x l IH]; intros s w; cbn.
  - exists []. now rewrite with_log_nil.
  - unfold bind. destruct (Hb s x w) as [e1 [E1 F1]]. rewrite E1.
    destruct (IH (g s x w) (with_log e1 w)) as [e2 [E2 F2]]. rewrite E2.
    exists (e2 ++ e1). rewrite with_log_app, forallb_app, F1, F2.
    split; [|reflexivity]. do 2 f_equal.
    clear -Hg. generalize (g s x w). induction l as [|y l IH]; intros s0; cbn.
    + reflexivity.
    + now rewrite Hg, IH.
Qed.

Lemma scans_iter_files {S} (dirs : list path) (body : S -> path -> M S)
  (g : S -> path -> world -> S) :
  (forall s p w evs, g s p (with_log evs w) = g s p w) ->
  (forall s p, scans (body s p) (g s p)) ->
  forall s, scans (_iter_files dirs body s) (fun w => fold_files g dirs w s).
Proof.
  intros Hg Hb s. unfold _iter_files, fold_files.
  apply (scans_for_each dirs _
           (fun s d w => if exists_in d w
                         then fold_left (fun s p => g s p w) (files_under d w) s
                         else s)).
  - intros s0 d w evs.
    change (exists_in d (with_log evs w)) with (exists_in d w).
    change (files_under d (with_log evs w)) with (files_under d w).
    destruct (exists_in d w); [|reflexivity].
    generalize (files_under d w) as ps. intros ps. revert s0.
    induction ps as [|q ps IH]; intros s0; cbn; [reflexivity|].
    now rewrite Hg, IH.
  - intros s0 d w. unfold bind, path_exists, emit, gets. cbn.
    change (exists_in d _) with (exists_in d w).
    destruct (exists_in d w) eqn:Ex; cbn.
    + destruct (scans_for_each (files_under d w) body g Hg Hb s0
                  (with_log [EvList d; EvExists d] w)) as [e2 [E2 F2]].
      unfold rglob_files, bind, emit, gets. cbn.
      change (for_each _ body s0 _)
        with (for_each (files_under d w) body s0
                       (with_log [EvList d; EvExists d] w)).
      rewrite E2.
      exists (e2 ++ [EvList d; EvExists d]).
      rewrite with_log_app, forallb_app, F2. split; [|reflexivity].
      do 2 f_equal. clear -Hg. generalize (files_under d w) as ps.
      intros ps. revert s0. induction ps as [|q ps IH]; intros s0; cbn; [reflexivity|].
      now rewrite Hg, IH.
    + exists [EvExists d]. split; reflexivity.
Qed.

Lemma scans_total_size_bytes (dirs : list path) :
  scans (_total_size_bytes dirs) (total_size dirs).
Proof.
  unfold _total_size_bytes, total_size. apply scans_iter_files.
  - reflexivity.
  - intros total p w. unfold try_except, bind, stat, emit, gets. cbn.
    exists [EvStat p]. unfold find_file.
    destruct (find _ (w_files w)); split; reflexivity.
Qed.

Lemma scans_collect_entries (dirs : list path) :
  scans (collect_entries dirs) (inventory dirs).
Proof.
  unfold collect_entries, inventory. apply scans_iter_files.
  - reflexivity.
  - intros es p w. unfold try_except, bind, stat, emit, gets. cbn.
    exists [EvStat p]. unfold find_file.
    destruct (find _ (w_files w)); split; reflexivity.
Qed.

(* ----------------------------------------------------------------- *)
(** ** The deletion loop *)

Lemma without_nil (fs : list file) : without [] fs = fs.
Proof.
  unfold without. induction fs as [|f fs IH]; cbn; [reflexivity|].
  f_equal. exact IH.
Qed.

Lemma without_app (a b : list path) (fs : list file) :
  without b (without a fs) = without (a ++ b) fs.
Proof.
  unfold without. induction fs as [|f fs IH]; cbn; [reflexivity|].
  rewrite existsb_app.
  destruct (existsb (path_eqb (f_path f)) a); cbn; [exact IH|].
  destruct (existsb (path_eqb (f_path f)) b); cbn; now rewrite IH.
Qed.

Lemma find_without (q : path) (ps : list path) (fs : list file) :
  find (fun f => path_eqb (f_path f) q) (without ps fs) =
  if existsb (path_eqb q) ps then None
  else find (fun f => path_eqb (f_path f) q) fs.
Proof.
  unfold without. induction fs as [|f fs IH]; cbn.
  - now destruct (existsb (path_eqb q) ps).
  - destruct (existsb (path_eqb (f_path f)) ps) eqn:Ef; cbn.
    + rewrite IH. destruct (path_eqb (f_path f) q) eqn:Eq; [|reflexivity].
      apply path_eqb_eq in Eq. subst q. now rewrite Ef.
    + destruct (path_eqb (f_path f) q) eqn:Eq; [|exact IH].
      apply path_eqb_eq in Eq. subst q. now rewrite Ef.
Qed.

Lemma without_missing (p : path) (fs : list file) :
  find (fun f => path_eqb (f_path f) p) fs = None -> without [p] fs = fs.
Proof.
  unfold without. induction fs as [|f fs IH]; simpl; [reflexivity|].
  destruct (path_eqb (f_path f) p) eqn:E; [discriminate|].
  intros H. simpl. f_equal. apply IH, H.
Qed.

Lemma without_one (p : path) (fs : list file) :
  filter (fun g => negb (path_eqb (f_path g) p)) fs = without [p] fs.
Proof.
  unfold without. apply filter_ext. intros f. cbn. now rewrite orb_false_r.
Qed.

(** One round of the loop: the [try] around [unlink]. *)
Lemma unlink_round (e : entry) (df db cur : Z) (w : world) :
  @try_except counters
    (unlink_missing_ok (snd e) ;;
     @ret counters (df + 1, db + snd (fst e), cur - snd (fst e)))
    any_Exception (@ret counters (df, db, cur)) w
  = (inr (if refused w (snd e) then (df, db, cur)
          else (df + 1, db + snd (fst e), cur - snd (fst e))),
     after_unlinks w [e]).
Proof.
  destruct e as [[m size] p]. cbn [fst snd].
  unfold after_unlinks, removable, refused. cbn [filter map rev app fst snd].
  unfold try_except, bind, unlink_missing_ok, emit, gets, find_file.
  cbn [fst snd w_files w_dirs w_fds w_now w_default_lib w_log].
  destruct (find (fun f => path_eqb (f_path f) p) (w_files w)) as [f|] eqn:Ef;
    cbn; rewrite Ef.
  - destruct (f_undeletable f) eqn:Eu; cbn.
    + now rewrite without_nil.
    + now rewrite without_one.
  - cbn. now rewrite without_missing.
Qed.

Lemma refused_after_unlinks (w : world) (e : Z * Z * path) (q : path) :
  refused (after_unlinks w [e]) q = refused w q.
Proof.
  unfold refused, find_file, after_unlinks, removable. cbn [w_files filter].
  rewrite find_without.
  destruct (negb (refused w (snd e))) eqn:Er; cbn [map existsb].
  - rewrite orb_false_r. destruct (path_eqb q (snd e)) eqn:Eq; [|reflexivity].
    apply path_eqb_eq in Eq. subst q.
    apply negb_true_iff in Er. unfold refused, find_file in Er.
    now rewrite Er.
  - reflexivity.
Qed.

Lemma removable_after_unlinks (w : world) (e : Z * Z * path)
  (es : list (Z * Z * path)) :
  removable (after_unlinks w [e]) es = removable w es.
Proof.
  unfold removable. apply filter_ext. intros x.
  now rewrite refused_after_unlinks.
Qed.

Lemma after_unlinks_cons (w : world) (e : Z * Z * path)
  (es : list (Z * Z * path)) :
  after_unlinks (after_unlinks w [e]) es = after_unlinks w (e :: es).
Proof.
  unfold after_unlinks at 1. rewrite removable_after_unlinks.
  unfold after_unlinks. cbn [w_files w_dirs w_fds w_now w_default_lib w_log].
  rewrite without_app. f_equal.
  - f_equal. unfold removable. cbn [filter].
    destruct (negb (refused w (snd e))); cbn; now rewrite ?map_app.
  - cbn. now rewrite <- app_assoc.
Qed.

Lemma freed_cons (w : world) (e : Z * Z * path) (es : list (Z * Z * path)) :
  freed w (e :: es) =
  (if refused w (snd e) then 0 else snd (fst e)) + freed w es.
Proof.
  unfold freed, removable. cbn [filter].
  destruct (refused w (snd e)); reflexivity.
Qed.

Lemma removable_cons_length (w : world) (e : Z * Z * path)
  (es : list (Z * Z * path)) :
  Z.of_nat (List.length (removable w (e :: es))) =
  (if refused w (snd e) then 0 else 1) + Z.of_nat (List.length (removable w es)).
Proof.
  unfold removable. cbn [filter].
  destruct (refused w (snd e)); cbn [negb List.length]; lia.
Qed.

(** The deletion loop never raises. It goes through a prefix [tried] of
    the candidates, in their order, and stops as soon as the running total
    is within [max_bytes]; an entry whose removal is refused is passed over
    and leaves the counters alone, every other entry is counted and its
    file, if there is one, removed. *)
Lemma prune_loop_spec (deletable : list entry) (max_bytes : Z) :
  forall (df db cur : Z) (w : world),
  exists tried rest,
    deletable = tried ++ rest /\
    prune_loop deletable max_bytes (df, db, cur) w =
      (inr (df + Z.of_nat (List.length (removable w tried)),
            db + freed w tried, cur - freed w tried),
       after_unlinks w tried) /\
    (rest = [] \/ cur - freed w tried <= max_bytes) /\
    (forall k, (k < List.length tried)%nat ->
               max_bytes < cur - freed w (firstn k tried)).
Proof.
  induction deletable as [|e l IH]; intros df db cur w.
  - exists [], []. cbn. unfold after_unlinks, removable, freed. cbn.
    rewrite without_nil. repeat split.
    + unfold ret. do 2 f_equal; [f_equal; [f_equal|]|]; try lia.
      now destruct w.
    + now left.
    + intros k Hk. inversion Hk.
  - destruct (cur <=? max_bytes) eqn:Ec.
    + exists [], (e :: l). unfold after_unlinks, removable, freed.
      destruct e as [[m size] p]. cbn. rewrite Ec, without_nil. repeat split.
      * unfold ret. do 2 f_equal; [f_equal; [f_equal|]|]; try lia.
        now destruct w.
      * right. apply Z.leb_le in Ec. lia.
      * intros k Hk. inversion Hk.
    + apply Z.leb_gt in Ec.
      pose proof (unlink_round e df db cur w) as Hr.
      set (st' := if refused w (snd e) then (df, db, cur)
                  else (df + 1, db + snd (fst e), cur - snd (fst e))) in *.
      destruct st' as [[df' db'] cur'] eqn:Est.
      destruct (IH df' db' cur' (after_unlinks w [e]))
        as [tried [rest [Hl [Hrun [Hstop Hmin]]]]].
      exists (e :: tried), rest.
      assert (Hf : forall es, freed (after_unlinks w [e]) es = freed w es).
      { intros es. unfold freed. now rewrite removable_after_unlinks. }
      rewrite removable_after_unlinks, Hf, after_unlinks_cons in Hrun.
      rewrite Hf in Hstop.
      assert (Hcur : cur' = cur - (if refused w (snd e) then 0 else snd (fst e))).
      { subst st'. destruct (refused w (snd e)); injection Est as <- <- <-; lia. }
      assert (Hdf : df' = df + (if refused w (snd e) then 0 else 1)).
      { subst st'. destruct (refused w (snd e)); injection Est as <- <- <-; lia. }
      assert (Hdb : db' = db + (if refused w (snd e) then 0 else snd (fst e))).
      { subst st'. destruct (refused w (snd e)); injection Est as <- <- <-; lia. }
      repeat split.
      * now rewrite Hl.
      * destruct e as [[m size] p].
        cbn [prune_loop]. apply Z.leb_gt in Ec. rewrite Ec.
        rewrite bind_run. cbn [fst snd] in Hr. unfold counters in *. rewrite Hr.
        rewrite Hrun. rewrite removable_cons_length, freed_cons.
        do 2 f_equal. f_equal; [f_equal|]; lia.
      * rewrite freed_cons. destruct Hstop as [->|Hs]; [now left|right; lia].
      * intros [|k] Hk.
        -- unfold freed. cbn. lia.
        -- cbn [firstn]. rewrite freed_cons.
           cbn in Hk. specialize (Hmin k ltac:(lia)). rewrite Hf in Hmin. lia.
Qed.

(* ----------------------------------------------------------------- *)
(** ** Sorting *)

Section Sorting.

Context {A : Type} (key : A -> Z).

Let leb (a b : A) : bool := key a <=? key b.
Let le (a b : A) : Prop := key a <= key b.

Lemma insert_by_perm (x : A) (l : list A) :
  Permutation (insert_by leb x l) (x :: l).
Proof.
  induction l as [|y l IH]; cbn; [reflexivity|].
  destruct (leb x y); [reflexivity|].
  rewrite IH. apply perm_swap.
Qed.

Lemma sort_by_perm (l : list A) : Permutation (sort_by leb l) l.
Proof.
  induction l as [|x l IH]; cbn; [reflexivity|].
  rewrite insert_by_perm. now constructor.
Qed.

Lemma insert_by_sorted (x : A) (l : list A) :
  StronglySorted le l -> StronglySorted le (insert_by leb x l).
Proof.
  induction l as [|y l IH]; intros Hs; cbn.
  - repeat constructor.
  - inversion Hs as [|? ? Hs' Hall]; subst.
    destruct (leb x y) eqn:E; unfold leb in E.
    + apply Z.leb_le in E. constructor; [exact Hs|].
      constructor; [exact E|].
      eapply Forall_impl; [|exact Hall]. unfold le. intros; lia.
    + apply Z.leb_gt in E. constructor; [now apply IH|].
      eapply Permutation_Forall; [symmetry; apply insert_by_perm|].
      constructor; [unfold le; lia|exact Hall].
Qed.

Lemma sort_by_sorted (l : list A) : StronglySorted le (sort_by leb l).
Proof.
  induction l as [|x l IH]; cbn; [constructor|].
  now apply insert_by_sorted.
Qed.

End Sorting.

Lemma firstn_In {A} (n : nat) (l : list A) (x : A) :
  In x (firstn n l) -> In x l.
Proof.
  intros H. rewrite <- (firstn_skipn n l). apply in_or_app. now left.
Qed.

Lemma StronglySorted_firstn {A} (R : A -> A -> Prop) (n : nat) (l : list A) :
  StronglySorted R l -> StronglySorted R (firstn n l).
Proof.
  revert n. induction l as [|x l IH]; intros n Hs.
  - now rewrite firstn_nil.
  - destruct n as [|n]; cbn; [constructor|].
    inversion Hs as [|? ? Hs' Hall]; subst. constructor; [now apply IH|].
    rewrite Forall_forall in *. intros y Hy. apply Hall.
    eapply firstn_In; eauto.
Qed.

Lemma sort_entries_oldest_first (es : list entry) : oldest_first (sort_entries es).
Proof. apply (sort_by_sorted e_mtime). Qed.

Lemma sort_entries_perm (es : list entry) : Permutation (sort_entries es) es.
Proof. apply (sort_by_perm e_mtime). Qed.

Lemma deletable_of_oldest_first (keep_newest : Z) (es : list entry) :
  oldest_first es -> oldest_first (deletable_of keep_newest es).
Proof.
  intros H. unfold deletable_of.
  destruct ((0 <? keep_newest) && (keep_newest <? Z.of_nat (List.length es)));
    [|exact H].
  now apply StronglySorted_firstn.
Qed.

(* ----------------------------------------------------------------- *)
(** ** Pruning under the lock *)

Lemma after_unlinks_nil (w : world) : after_unlinks w [] = w.
Proof.
  unfold after_unlinks, removable. cbn. rewrite without_nil. now destruct w.
Qed.

(** What [prune_locked] does, in every world it may find once the lock is
    held. With [cands] the candidates, it tries a prefix [tried] of them;
    [e1] and [e2] are the scans before and after the loop. *)
Lemma prune_locked_spec (t0 before max_bytes : Z) (dirs : list path)
  (keep_newest : Z) (w : world) :
  exists tried rest e1 e2,
    deletable_of keep_newest (sort_entries (inventory dirs w)) = tried ++ rest /\
    forallb is_scan e1 = true /\ forallb is_scan e2 = true /\
    prune_locked t0 before max_bytes dirs keep_newest w =
      (inr (mkCachePruneResult before (total_size dirs (after_unlinks w tried))
              (Z.of_nat (List.length (removable w tried))) (freed w tried)
              (w_now w - t0) false),
       with_log e2 (after_unlinks (with_log e1 w) tried)) /\
    (rest = [] \/ total_size dirs w - freed w tried <= max_bytes) /\
    (forall k, (k < List.length tried)%nat ->
               max_bytes < total_size dirs w - freed w (firstn k tried)).
Proof.
  unfold prune_locked. rewrite bind_run.
  destruct (scans_total_size_bytes dirs w) as [ea [Ea Fa]]. rewrite Ea.
  destruct (total_size dirs w <=? max_bytes) eqn:Ec.
  - exists [], (deletable_of keep_newest (sort_entries (inventory dirs w))), ea, [].
    rewrite !after_unlinks_nil, with_log_nil. repeat split; try assumption.
    + right. apply Z.leb_le in Ec. unfold freed. cbn. lia.
    + intros k Hk. inversion Hk.
  - rewrite bind_run.
    destruct (scans_collect_entries dirs (with_log ea w)) as [eb [Eb Fb]].
    rewrite Eb. rewrite with_log_app.
    change (inventory dirs (with_log ea w)) with (inventory dirs w).
    set (cands := deletable_of keep_newest (sort_entries (inventory dirs w))).
    destruct (prune_loop_spec cands max_bytes 0 0 (total_size dirs w)
                (with_log (eb ++ ea) w))
      as [tried [rest [Hc [Hrun [Hstop Hmin]]]]].
    rewrite bind_run. unfold counters in *. rewrite Hrun.
    rewrite bind_run.
    destruct (scans_total_size_bytes dirs
                (after_unlinks (with_log (eb ++ ea) w) tried)) as [ec [Ec' Fc]].
    rewrite Ec'.
    exists tried, rest, (eb ++ ea), ec. repeat split; try assumption.
    rewrite forallb_app. now rewrite Fa, Fb.
Qed.

(* ----------------------------------------------------------------- *)
(** ** Locks *)

Lemma mkdir_p_run (d : path) (w : world) :
  mkdir_p d w = (inr tt, after_mkdir d w).
Proof. reflexivity. Qed.

Lemma existsb_path_In (p : path) (l : list path) :
  existsb (path_eqb p) l = true <-> In p l.
Proof.
  rewrite existsb_exists. split.
  - intros [x [Hx E]]. apply path_eqb_eq in E. now subst.
  - intros H. exists p. split; [exact H|apply path_eqb_refl].
Qed.

Lemma prefixes_self (d : path) : d <> [] -> In d (prefixes d).
Proof.
  induction d as [|x d IH]; [congruence|]. intros _. cbn.
  destruct d as [|y d]; [now left|].
  right. apply in_map. apply IH. discriminate.
Qed.

Lemma is_dir_after_mkdir (d : path) (w : world) :
  d <> [] -> is_dir d (after_mkdir d w) = true.
Proof.
  intros Hd. unfold is_dir, after_mkdir. cbn [w_dirs].
  rewrite existsb_app.
  destruct (existsb (path_eqb d) (w_dirs w)) eqn:E; [reflexivity|]. cbn.
  apply existsb_path_In. apply filter_In. split.
  - now apply prefixes_self.
  - now rewrite E.
Qed.

Lemma fd_open_In (fd : Z) (w : world) :
  fd_open fd w = true <-> In fd (map fst (w_fds w)).
Proof.
  unfold fd_open. rewrite existsb_exists, in_map_iff. split.
  - intros [e [He E]]. apply Z.eqb_eq in E. eauto.
  - intros [e [E He]]. exists e. split; [exact He|now apply Z.eqb_eq].
Qed.

(** The descriptor handed out is not one that is open. *)
Lemma fresh_fd_not_open (w : world) : fd_open (fresh_fd w) w = false.
Proof.
  unfold fresh_fd.
  destruct (find _ _) as [n|] eqn:E.
  - apply find_some in E as [_ E]. now apply negb_true_iff in E.
  - exfalso.
    set (cands := map Z.of_nat (seq 3 (S (List.length (w_fds w))))) in *.
    assert (Hincl : incl cands (map fst (w_fds w))).
    { intros n Hn. apply fd_open_In.
      pose proof (find_none _ _ E n Hn) as H. now apply negb_false_iff in H. }
    assert (Hnd : NoDup cands).
    { apply Finite.Injective_map_NoDup; [|apply seq_NoDup].
      intros a b. apply Nat2Z.inj. }
    pose proof (NoDup_incl_length Hnd Hincl) as Hlen.
    unfold cands in Hlen. rewrite !length_map, length_seq in Hlen. lia.
Qed.

(** One attempt to create a lock file, as [_acquire_prune_lock] and each
    round of [_FileLock.acquire] make it. *)
Lemma acquire_prune_lock_run (X : externals) (p : path) (w : world) :
  _acquire_prune_lock X p w =
  if exists_in p w then (inr None, with_log [EvOpenExcl p] w)
  else if is_dir (parent p) w then (inr (Some (fresh_fd w)), after_lock X p w)
  else (inl FileNotFoundError, with_log [EvOpenExcl p] w).
Proof.
  unfold _acquire_prune_lock, try_except, os_open_excl, os_write, time_time,
    set_files, set_fds, emit, gets, bind, ret, raise.
  cbn -[exists_in is_dir fresh_fd].
  change (exists_in p _) with (exists_in p w).
  destruct (exists_in p w); [reflexivity|].
  cbn -[exists_in is_dir fresh_fd].
  change (is_dir (parent p) _) with (is_dir (parent p) w).
  destruct (is_dir (parent p) w); [|reflexivity].
  cbn -[fresh_fd]. rewrite Z.eqb_refl. reflexivity.
Qed.

Lemma try_lock_run (X : externals) (self : FileLock) (w : world) :
  try_lock X self w = _acquire_prune_lock X (lock_path self) w.
Proof. reflexivity. Qed.

Lemma filter_fd_absent (fd : Z) (fds : list (Z * path)) :
  existsb (fun e => Z.eqb (fst e) fd) fds = false ->
  filter (fun e => negb (Z.eqb (fst e) fd)) fds = fds.
Proof.
  induction fds as [|e fds IH]; cbn; [reflexivity|].
  destruct (Z.eqb (fst e) fd); cbn; [discriminate|].
  intros H. now rewrite IH.
Qed.

Lemma unlink_swallowed_run (p : path) (w : world) :
  try_except (unlink_missing_ok p) any_Exception (ret tt) w =
  (inr tt, after_release None p w).
Proof.
  unfold after_release, refused.
  unfold try_except, bind, unlink_missing_ok, emit, gets, find_file.
  cbn [fst snd w_files w_dirs w_fds w_now w_default_lib w_log app].
  destruct (find (fun f => path_eqb (f_path f) p) (w_files w)) as [f|] eqn:Ef;
    cbn; rewrite Ef.
  - destruct (f_undeletable f); cbn; [reflexivity|]. now rewrite without_one.
  - cbn. now rewrite without_missing.
Qed.

(** [_release_prune_lock]: the close is logged, the removal of the lock
    file is attempted whether or not the close failed, and only a failed
    close is reported. *)
Lemma release_prune_lock_run (fd : Z) (p : path) (w : world) :
  _release_prune_lock fd p w =
  (if fd_open fd w then inr tt else inl BadFileDescriptor,
   after_release (Some fd) p w).
Proof.
  unfold _release_prune_lock, try_finally.
  unfold os_close at 1. unfold bind, emit, gets. cbn [fst snd].
  unfold fd_open. cbn [w_fds].
  destruct (existsb (fun e => Z.eqb (fst e) fd) (w_fds w)) eqn:E.
  - unfold set_fds. cbn [fst snd w_files w_dirs w_fds w_now w_default_lib w_log].
    rewrite unlink_swallowed_run. reflexivity.
  - unfold raise. rewrite unlink_swallowed_run.
    unfold after_release. cbn [w_files w_dirs w_fds w_now w_default_lib w_log].
    rewrite filter_fd_absent by exact E. reflexivity.
Qed.

(** [_FileLock.release] *)
Lemma release_run (self : FileLock) (w : world) :
  release self w =
  (match _fd self with
   | Some fd => if fd_open fd w then inr tt else inl BadFileDescriptor
   | None => inr tt
   end,
   after_release (_fd self) (lock_path self) w).
Proof.
  unfold release. destruct (_fd self) as [fd|].
  - apply release_prune_lock_run.
  - unfold try_finally, ret. now rewrite unlink_swallowed_run.
Qed.

(* ----------------------------------------------------------------- *)
(** ** Paths of the configuration *)

Lemma LOCK_DIR_eq (cfg : config) : LOCK_DIR cfg = FIGURE_DIR cfg ++ [py "locks"].
Proof. reflexivity. Qed.

Lemma PNG_DIR_eq (cfg : config) : PNG_DIR cfg = FIGURE_DIR cfg ++ [py "png"].
Proof. reflexivity. Qed.

Lemma PDF_DIR_eq (cfg : config) : PDF_DIR cfg = FIGURE_DIR cfg ++ [py "pdf"].
Proof. reflexivity. Qed.

Lemma TIFF_DIR_eq (cfg : config) : TIFF_DIR cfg = FIGURE_DIR cfg ++ [py "tiff"].
Proof. reflexivity. Qed.

Lemma prune_lock_path_eq (cfg : config) :
  prune_lock_path cfg = LOCK_DIR cfg ++ [py "_prune.lock"].
Proof. reflexivity. Qed.

Lemma parent_snoc (d : path) (n : pystr) : parent (d ++ [n]) = d.
Proof. apply removelast_last. Qed.

Lemma parent_prune_lock_path (cfg : config) :
  parent (prune_lock_path cfg) = LOCK_DIR cfg.
Proof. rewrite prune_lock_path_eq. apply parent_snoc. Qed.

Lemma LOCK_DIR_nonempty (cfg : config) : LOCK_DIR cfg <> [].
Proof. rewrite LOCK_DIR_eq. now destruct (FIGURE_DIR cfg). Qed.

Lemma prefixes_length (d q : path) :
  In q (prefixes d) -> (List.length q <= List.length d)%nat.
Proof.
  revert q. induction d as [|x d IH]; intros q; cbn; [tauto|].
  intros [<-|H]; [cbn; lia|].
  apply in_map_iff in H as [q' [<- H]]. apply IH in H. cbn. lia.
Qed.

(** [mkdir_p d] creates nothing at a path longer than [d]. *)
Lemma exists_in_after_mkdir (d p : path) (w : world) :
  (List.length d < List.length p)%nat ->
  exists_in p (after_mkdir d w) = exists_in p w.
Proof.
  intros Hlen. unfold exists_in, is_file, find_file, is_dir, after_mkdir.
  cbn [w_files w_dirs]. f_equal. rewrite existsb_app.
  destruct (existsb (path_eqb p) (filter _ (prefixes d))) eqn:E.
  - apply existsb_path_In in E. apply filter_In in E as [E _].
    apply prefixes_length in E. lia.
  - apply orb_false_r.
Qed.

(* ----------------------------------------------------------------- *)
(** ** Events of a log *)

Lemma flat_map_none {B} (f : event -> list B) (evs : list event) :
  (forall e, In e evs -> f e = []) -> flat_map f evs = [].
Proof.
  induction evs as [|e evs IH]; intros H; cbn; [reflexivity|].
  rewrite H by now left. apply IH. intros e' He'. apply H. now right.
Qed.


Lemma scan_no_unlink (evs : list event) :
  forallb is_scan evs = true -> unlink_attempts evs = [].
Proof.
  intros H. unfold unlink_attempts. rewrite flat_map_none; [reflexivity|].
  intros e He. rewrite forallb_forall in H. apply H in He. now destruct e.
Qed.



Lemma unlink_attempts_app (a b : list event) :
  unlink_attempts (a ++ b) = unlink_attempts b ++ unlink_attempts a.
Proof. unfold unlink_attempts. now rewrite flat_map_app, rev_app_distr. Qed.




Lemma unlinks_unlink_attempts (es : list entry) :
  unlink_attempts (rev (map (fun e => EvUnlink (snd e)) es)) = map snd es.
Proof.
  unfold unlink_attempts. induction es as [|e es IH]; [reflexivity|].
  cbn [map rev]. rewrite flat_map_app, rev_app_distr. cbn. now rewrite IH.
Qed.

(* ----------------------------------------------------------------- *)
(** ** A whole call of [prune_cache_if_needed] *)

Section Pruning.

Context (X : externals) (cfg : config).

Lemma prune_lock_taken_after_mkdir (w : world) :
  exists_in (prune_lock_path cfg) (after_mkdir (LOCK_DIR cfg) w) =
  exists_in (prune_lock_path cfg) w.
Proof.
  apply exists_in_after_mkdir. rewrite prune_lock_path_eq, length_app. cbn. lia.
Qed.

(** The prune lock is taken: the call returns at once, after one more
    measurement. *)
Lemma prune_over_budget_busy (t0 before max_bytes : Z) (dirs : list path)
  (keep_newest : Z) (w : world) :
  exists_in (prune_lock_path cfg) w = true ->
  exists e,
    forallb is_scan e = true /\
    prune_over_budget X cfg t0 before max_bytes dirs keep_newest w =
    (inr (mkCachePruneResult before
            (total_size dirs (after_mkdir (LOCK_DIR cfg) w)) 0 0
            (w_now w - t0) true),
     with_log (e ++ [EvOpenExcl (prune_lock_path cfg)])
              (after_mkdir (LOCK_DIR cfg) w)).
Proof.
  intros Hbusy. unfold prune_over_budget.
  rewrite bind_run, mkdir_p_run, bind_run, acquire_prune_lock_run.
  rewrite prune_lock_taken_after_mkdir, Hbusy.
  rewrite bind_run.
  destruct (scans_total_size_bytes dirs
              (with_log [EvOpenExcl (prune_lock_path cfg)]
                        (after_mkdir (LOCK_DIR cfg) w))) as [e [E F]].
  rewrite E. exists e. split; [exact F|]. now rewrite with_log_app.
Qed.

(** The prune lock is free: it is taken, the locked part runs in the
    world [w2] that holds the lock file, and the lock is released. *)
Lemma prune_over_budget_free (t0 before max_bytes : Z) (dirs : list path)
  (keep_newest : Z) (w : world) :
  exists_in (prune_lock_path cfg) w = false ->
  let w2 := after_lock X (prune_lock_path cfg) (after_mkdir (LOCK_DIR cfg) w) in
  exists tried rest e1 e2,
    deletable_of keep_newest (sort_entries (inventory dirs w2)) = tried ++ rest /\
    forallb is_scan e1 = true /\ forallb is_scan e2 = true /\
    prune_over_budget X cfg t0 before max_bytes dirs keep_newest w =
      (inr (mkCachePruneResult before (total_size dirs (after_unlinks w2 tried))
              (Z.of_nat (List.length (removable w2 tried))) (freed w2 tried)
              (w_now w - t0) false),
       after_release (Some (fresh_fd w)) (prune_lock_path cfg)
         (with_log e2 (after_unlinks (with_log e1 w2) tried))) /\
    (rest = [] \/ total_size dirs w2 - freed w2 tried <= max_bytes) /\
    (forall k, (k < List.length tried)%nat ->
               max_bytes < total_size dirs w2 - freed w2 (firstn k tried)).
Proof.
  intros Hfree w2. unfold prune_over_budget.
  rewrite bind_run, mkdir_p_run, bind_run, acquire_prune_lock_run.
  rewrite prune_lock_taken_after_mkdir, Hfree.
  rewrite parent_prune_lock_path.
  rewrite is_dir_after_mkdir by apply LOCK_DIR_nonempty.
  fold w2.
  destruct (prune_locked_spec t0 before max_bytes dirs keep_newest w2)
    as [tried [rest [e1 [e2 [Hc [F1 [F2 [Hrun [Hstop Hmin]]]]]]]]].
  exists tried, rest, e1, e2. repeat split; try assumption.
  unfold try_finally. rewrite Hrun, release_prune_lock_run.
  unfold fd_open. cbn [w_fds with_log after_unlinks w2 after_lock after_mkdir].
  cbn [existsb fst]. unfold fresh_fd at 1. cbn [w_fds].
  fold (fresh_fd w). rewrite Z.eqb_refl. reflexivity.
Qed.


End Pruning.

Section PruneLock.

Context (X : externals) (cfg : config).



End PruneLock.

(* ----------------------------------------------------------------- *)
(** ** What a prune deletes *)


(** C3, as the code has it. Once the prune lock is held, the candidates
    are in oldest-first order and the call goes through the shortest prefix
    [tried] of them after which the running total is within [max_bytes],
    or through all of them when there is no such prefix; the running total
    only drops by the entries whose removal is not refused, and these are
    the files that are gone afterwards and the ones reported. Nothing is
    removed when the total is within [max_bytes], whether at the first
    measurement or at the one under the lock. In the scenario of 4, 3 and
    2 GiB with a budget of 5 GiB only the oldest file is removed. *)
Theorem prune_removes_shortest_oldest_prefix :
  (forall t0 before max_bytes dirs keep_newest w,
     let cands := deletable_of keep_newest (sort_entries (inventory dirs w)) in
     let r := fst (prune_locked t0 before max_bytes dirs keep_newest w) in
     let w' := snd (prune_locked t0 before max_bytes dirs keep_newest w) in
     oldest_first cands /\
     exists tried rest,
       cands = tried ++ rest /\
       unlink_attempts (new_events w w') = map snd tried /\
       (rest = [] \/ total_size dirs w - freed w tried <= max_bytes) /\
       (forall k, (k < List.length tried)%nat ->
                  max_bytes < total_size dirs w - freed w (firstn k tried)) /\
       (total_size dirs w <= max_bytes -> tried = []) /\
       w_files w' = without (map snd (removable w tried)) (w_files w) /\
       r = inr (mkCachePruneResult before (total_size dirs w')
                  (Z.of_nat (List.length (removable w tried))) (freed w tried)
                  (w_now w - t0) false))
  /\
  (forall X cfg max_bytes dirs keep_newest w,
     let mb := match max_bytes with None => CACHE_MAX_BYTES cfg | Some m => m end in
     let ds := match dirs with None => CACHE_DIRS cfg | Some ds => ds end in
     let r := fst (prune_cache_if_needed X cfg max_bytes dirs keep_newest w) in
     let w' := snd (prune_cache_if_needed X cfg max_bytes dirs keep_newest w) in
     if total_size ds w <=? mb
     then r = inr (mkCachePruneResult (total_size ds w) (total_size ds w) 0 0 0 false)
          /\ w_files w' = w_files w
          /\ unlink_attempts (new_events w w') = []
     else True)
  /\
  (let r := fst (prune_cache_if_needed sample_externals sample_config
                   (Some (5 * GiB)) None 0 three_figures) in
   let w' := snd (prune_cache_if_needed sample_externals sample_config
                    (Some (5 * GiB)) None 0 three_figures) in
   r = inr (mkCachePruneResult (9 * GiB) (5 * GiB) 1 (4 * GiB) 0 false) /\
   map f_path (w_files w') = [newest_png; middle_pdf]).
Proof.
  split; [|split].
  - intros t0 before max_bytes dirs keep_newest w cands r w'.
    split.
    { apply deletable_of_oldest_first, sort_entries_oldest_first. }
    subst r w'.
    destruct (prune_locked_spec t0 before max_bytes dirs keep_newest w)
      as [tried [rest [e1 [e2 [Hc [F1 [F2 [Hrun [Hstop Hmin]]]]]]]]].
    rewrite Hrun. cbn [fst snd].
    exists tried, rest. repeat split; try assumption.
    + rewrite (new_events_app
                 (e2 ++ rev (map (fun e => EvUnlink (snd e)) tried) ++ e1)).
      * rewrite !unlink_attempts_app, (scan_no_unlink e1), (scan_no_unlink e2),
          unlinks_unlink_attempts by assumption.
        now rewrite app_nil_r.
      * cbn. now rewrite <- !app_assoc.
    + intros Hle. destruct tried as [|e tried]; [reflexivity|].
      specialize (Hmin 0%nat ltac:(cbn; lia)). unfold freed in Hmin.
      cbn in Hmin. lia.
  - intros X cfg max_bytes dirs keep_newest w mb ds r w'. subst r w'.
    unfold prune_cache_if_needed. rewrite bind_run. cbn [time_time gets].
    fold mb ds. rewrite bind_run.
    destruct (scans_total_size_bytes ds w) as [e [E F]]. rewrite E.
    destruct (total_size ds w <=? mb); [|exact I].
    cbn [fst snd bind ret time_time gets w_now with_log].
    rewrite Z.sub_diag, new_events_with_log, scan_no_unlink by exact F.
    repeat split.
  - vm_compute. split; reflexivity.
Qed.

(** C3 fails as stated: with the oldest of the three figures pinned, the
    call removes the two newer ones and keeps the oldest, so the files it
    deletes are not a prefix of the oldest-first candidates, let alone the
    shortest sufficient one. *)
Lemma pinned_file_breaks_the_prefix :
  let call := prune_cache_if_needed sample_externals sample_config
                (Some (5 * GiB)) None 0 oldest_pinned in
  let cands := deletable_of 0 (sort_entries
                 (inventory (CACHE_DIRS sample_config) oldest_pinned)) in
  fst call = inr (mkCachePruneResult (9 * GiB) (4 * GiB) 2 (5 * GiB) 0 false) /\
  map f_path (w_files (snd call)) = [oldest_png] /\
  map e_path cands = [oldest_png; middle_pdf; newest_png] /\
  ~ (exists pre,
       shortest_sufficient_prefix cands pre (9 * GiB) (5 * GiB) /\
       forall p, In p (map e_path pre) <->
                 (is_file p oldest_pinned = true /\ is_file p (snd call) = false)).
Proof.
  intros call cands.
  split; [vm_compute; reflexivity|].
  split; [vm_compute; reflexivity|].
  split; [vm_compute; reflexivity|].
  intros [pre [[[rest Hpre] [Hle _]] Hiff]].
  destruct pre as [|e pre].
  - cbn in Hle. unfold GiB in Hle. lia.
  - assert (He : e_path e = oldest_png).
    { vm_compute in Hpre. injection Hpre as <- _. reflexivity. }
    destruct (Hiff oldest_png) as [H _].
    destruct H as [_ H]; [left; exact He|].
    vm_compute in H. discriminate.
Qed.

(* ----------------------------------------------------------------- *)
(** ** Failed deletions *)



(* ----------------------------------------------------------------- *)
(** ** The keep-newest floor *)

(** With more entries than [keep_newest], the newest [keep_newest] of the
    sorted entries are no candidates. *)
Lemma deletable_of_floor (keep_newest : Z) (entries : list entry) :
  0 < keep_newest < Z.of_nat (List.length entries) ->
  entries = deletable_of keep_newest entries
            ++ skipn (List.length entries - Z.to_nat keep_newest) entries /\
  List.length (skipn (List.length entries - Z.to_nat keep_newest) entries)
  = Z.to_nat keep_newest.
Proof.
  intros [H1 H2]. unfold deletable_of.
  apply Z.ltb_lt in H1 as H1'. apply Z.ltb_lt in H2 as H2'.
  rewrite H1', H2'. cbn [andb]. split.
  - symmetry. apply firstn_skipn.
  - rewrite length_skipn. lia.
Qed.

(** C4 at the failing input: with [keep_newest = 1] and a cache whose only
    file exceeds the budget, that file, the newest there is, is a
    candidate and is deleted. In general every entry is a candidate as
    soon as there are no more than [keep_newest] of them. *)
Theorem keep_newest_ignored_when_few_files :
  (let call := prune_cache_if_needed sample_externals sample_config
                 (Some 5) None 1 one_figure in
   fst call = inr (mkCachePruneResult 10 0 1 10 0 false) /\
   is_file oldest_png one_figure = true /\
   is_file oldest_png (snd call) = false /\
   unlink_attempts (new_events one_figure (snd call))
     = [oldest_png; prune_lock_path sample_config])
  /\
  (forall keep_newest entries,
     Z.of_nat (List.length entries) <= keep_newest ->
     deletable_of keep_newest entries = entries).
Proof.
  split.
  - vm_compute. repeat split; reflexivity.
  - intros keep_newest entries H. unfold deletable_of.
    apply Z.ltb_ge in H. rewrite H. now rewrite andb_false_r.
Qed.


(* ----------------------------------------------------------------- *)
(** ** The entry points *)

Section Ensure.

Context (X : externals) (cfg : config).

Lemma path_exists_run (p : path) (w : world) :
  path_exists p w = (inr (exists_in p w), with_log [EvExists p] w).
Proof. reflexivity. Qed.

(** Every entry point is its preamble followed by the shared body. *)
Lemma ensure_unfold (k : kind) (raw : pystr) (library layer basis : option pystr) :
  ensure X cfg k raw library layer basis =
  (key <- lift (_safe_gene X raw) ;;
   lib <- library_or_default cfg library ;;
   if supported k
   then ensure_cached X cfg (artifact_of cfg k key)
          (mkRequest lib (or_default (DEFAULT_LAYER cfg) layer)
                     (or_default (DEFAULT_BASIS cfg) basis))
   else raise (RenderError BAD_INPUT)).
Proof.
  destruct k as [dpi| |dpi]; try reflexivity.
  unfold ensure, ensure_export_tiff, supported.
  destruct (existsb (Z.eqb dpi) ALLOWED_EXPORT_DPI); reflexivity.
Qed.

Lemma library_lookup_only_logs (library : option pystr) :
  respects (only_logs (is_library_lookup cfg)) (library_or_default cfg library).
Proof.
  unfold library_or_default, _pick_default_library.
  respects_steps;
    try (apply only_logs_emit; cbn; try apply path_eqb_refl; reflexivity).
Qed.

Lemma library_lookup_probe (e : event) :
  is_library_lookup cfg e = true -> is_probe e = true.
Proof. now destruct e. Qed.

(** A library that is passed is taken as it is, without any lookup. *)
Lemma library_given (c : pychar) (l : pystr) (w : world) :
  library_or_default cfg (Some (c :: l)) w = (inr (c :: l), w).
Proof. reflexivity. Qed.

End Ensure.

Lemma safe_gene_error (X : externals) (raw : pystr) (e : exn) :
  _safe_gene X raw = inl e -> e = RenderError BAD_INPUT.
Proof.
  unfold _safe_gene. destruct (str_eqb (strip raw) []); congruence.
Qed.

Lemma artifact_of_gene (cfg : config) (k : kind) (key : pystr) :
  a_gene (artifact_of cfg k key) = key.
Proof. now destruct k. Qed.

(** C2, as the code has it: when the key is accepted, the quality
    parameter is supported and the library is passed or a default library
    is found, a call whose artifact exists returns [cache_hit = True] with
    the artifact's path after mere look-ups: no lock, no prune, no render,
    whatever the world has been through before. *)
Theorem cached_artifact_is_a_hit (X : externals) (cfg : config) (k : kind)
  (raw : pystr) (library layer basis : option pystr) (w : world)
  (key lib : pystr) :
  _safe_gene X raw = inr key ->
  supported k = true ->
  fst (library_or_default cfg library w) = inr lib ->
  exists_in (a_out (artifact_of cfg k key)) w = true ->
  exists evs,
    ensure X cfg k raw library layer basis w =
      (inr (mkRenderResult key (a_out (artifact_of cfg k key)) true),
       with_log evs w) /\
    forallb is_probe evs = true.
Proof.
  intros Hkey Hsup Hlib Hex.
  rewrite ensure_unfold, bind_run. unfold lift. rewrite Hkey, bind_run.
  destruct (library_lookup_only_logs cfg library w) as [e [E F]].
  destruct (library_or_default cfg library w) as [r w1]. cbn [fst snd] in *.
  subst r w1. rewrite Hsup. unfold ensure_cached.
  rewrite bind_run, path_exists_run.
  change (exists_in _ (with_log e w))
    with (exists_in (a_out (artifact_of cfg k key)) w).
  rewrite Hex. unfold ret, hit_result. rewrite artifact_of_gene, with_log_app.
  eexists. split; [reflexivity|]. cbn [app forallb is_probe andb].
  rewrite forallb_forall in *. intros x Hx.
  apply (library_lookup_probe cfg), F, Hx.
Qed.

(** The cached figure of [Gfap] is served as a hit. *)
Lemma cached_artifact_is_a_hit_witness :
  exists evs,
    ensure sample_externals sample_config (PlotPng None) (py "Gfap")
           None None None gfap_cached =
      (inr (mkRenderResult (py "Gfap") gfap_png true), with_log evs gfap_cached)
    /\ forallb is_probe evs = true.
Proof.
  apply (cached_artifact_is_a_hit sample_externals sample_config (PlotPng None)
           (py "Gfap") None None None gfap_cached (py "Gfap") (py "sham"));
    reflexivity.
Defined.

(** C2 fails as stated: the figure of [Gfap] is cached, yet the call the
    web routes make (no library passed) raises [FILE_NOT_FOUND] when no
    default library can be found, because the library is looked up before
    the cache is. *)
Lemma cached_artifact_without_library :
  a_out (artifact_of sample_config (PlotPng None) (py "Gfap")) = gfap_png /\
  exists_in gfap_png gfap_cached_no_data = true /\
  fst (ensure sample_externals sample_config (PlotPng None) (py "Gfap")
              None None None gfap_cached_no_data)
    = inl (RenderError FILE_NOT_FOUND).
Proof. repeat split; vm_compute; reflexivity. Qed.

(** C5, as the code has it: [ensure_export_tiff] never serves a dpi
    outside the allow-set. It raises [BAD_INPUT] unless the look-up of the
    default library, which precedes the dpi check, has failed with its own
    error. Before it raises it acquires no lock and touches nothing but
    what that look-up reads (the environment variable and the data
    directory); when the library is passed it touches nothing at all. *)
Theorem unsupported_dpi_is_rejected (X : externals) (cfg : config)
  (raw : pystr) (dpi : Z) (library layer basis : option pystr) (w : world) :
  existsb (Z.eqb dpi) ALLOWED_EXPORT_DPI = false ->
  let r := fst (ensure_export_tiff X cfg raw dpi library layer basis w) in
  let w' := snd (ensure_export_tiff X cfg raw dpi library layer basis w) in
  (exists e, r = inl e) /\
  (forall lib, fst (library_or_default cfg library w) = inr lib ->
               r = inl (RenderError BAD_INPUT)) /\
  (exists evs, w' = with_log evs w /\
               forallb (is_library_lookup cfg) evs = true) /\
  open_attempts (new_events w w') = [] /\
  (forall c l, library = Some (c :: l) ->
               r = inl (RenderError BAD_INPUT) /\ w' = w).
Proof.
  intros Hdpi r w'. subst r w'.
  change (ensure_export_tiff X cfg raw dpi library layer basis)
    with (ensure X cfg (ExportTiff dpi) raw library layer basis).
  rewrite ensure_unfold, bind_run. unfold lift, supported. rewrite Hdpi.
  assert (Hnone : forall evs, forallb (is_library_lookup cfg) evs = true ->
                              open_attempts evs = []).
  { intros evs F. unfold open_attempts. rewrite flat_map_none; [reflexivity|].
    intros e He. rewrite forallb_forall in F. apply F in He. now destruct e. }
  destruct (_safe_gene X raw) as [e|key] eqn:Hg.
  - apply safe_gene_error in Hg. subst e. cbn [fst snd].
    split; [eauto|]. split; [reflexivity|].
    split; [exists []; now rewrite with_log_nil|].
    split; [unfold new_events; now rewrite Nat.sub_diag|].
    intros c l _. now split.
  - rewrite bind_run.
    destruct (library_lookup_only_logs cfg library w) as [evs [E F]].
    destruct (library_or_default cfg library w) as [[e|lib] w1] eqn:Hl;
      cbn [fst snd raise] in *; subst w1.
    + split; [eauto|]. split; [intros lib H; discriminate|].
      split; [eauto|].
      split; [rewrite new_events_with_log; now apply Hnone|].
      intros c l ->. rewrite library_given in Hl. discriminate.
    + split; [eauto|]. split; [reflexivity|].
      split; [eauto|].
      split; [rewrite new_events_with_log; now apply Hnone|].
      intros c l ->. rewrite library_given in Hl.
      injection Hl as _ Hw. split; [reflexivity|]. now rewrite <- Hw.
Qed.

(** A dpi of 100 is rejected. *)
Lemma unsupported_dpi_is_rejected_witness :
  existsb (Z.eqb 100) ALLOWED_EXPORT_DPI = false /\
  fst (ensure_export_tiff sample_externals sample_config (py "Gfap") 100
         None None None gfap_cached) = inl (RenderError BAD_INPUT).
Proof.
  split; [reflexivity|].
  apply (unsupported_dpi_is_rejected sample_externals sample_config (py "Gfap")
           100 None None None gfap_cached eq_refl) with (lib := py "sham").
  reflexivity.
Defined.

(** C5 fails as stated for the call the web route makes, which passes no
    library: the dpi of 100 is only rejected after the data directory has
    been tested and listed, and when there is no data directory the call
    raises [FILE_NOT_FOUND], not [BAD_INPUT]. *)
Lemma unsupported_dpi_after_library_lookup :
  (let call := ensure_export_tiff sample_externals sample_config (py "Gfap") 100
                 None None None with_data in
   fst call = inl (RenderError BAD_INPUT) /\
   new_events with_data (snd call)
     = [EvList (DATA_DIR sample_config); EvExists (DATA_DIR sample_config);
        EvGetenv (py "DEFAULT_LIB")] /\
   existsb is_fs_access (new_events with_data (snd call)) = true)
  /\
  fst (ensure_export_tiff sample_externals sample_config (py "Gfap") 100
         None None None gfap_cached_no_data) = inl (RenderError FILE_NOT_FOUND).
Proof. repeat split; vm_compute; reflexivity. Qed.

(** C10: sanitisation is not injective. The distinct keys ["a/b"] and
    ["a:b"] both become ["a_b"], so that every entry point behaves the same
    on both, with the same artifact path and the same lock path. *)
Theorem sanitisation_is_not_injective (X : externals) (cfg : config) :
  py "a/b" <> py "a:b" /\
  strip (py "a/b") <> [] /\ strip (py "a:b") <> [] /\
  _safe_gene X (py "a/b") = inr (py "a_b") /\
  _safe_gene X (py "a:b") = inr (py "a_b") /\
  (forall k library layer basis w,
     ensure X cfg k (py "a/b") library layer basis w
     = ensure X cfg k (py "a:b") library layer basis w) /\
  (forall dpi,
     a_out (artifact_of cfg (PlotPng dpi) (py "a_b"))
       = PNG_DIR cfg ++ [py "a_b.png"] /\
     a_lock (artifact_of cfg (PlotPng dpi) (py "a_b"))
       = LOCK_DIR cfg ++ [py "a_b.plot_png.lock"]) /\
  a_out (artifact_of cfg ExportPdf (py "a_b")) = PDF_DIR cfg ++ [py "a_b.pdf"] /\
  a_lock (artifact_of cfg ExportPdf (py "a_b"))
    = LOCK_DIR cfg ++ [py "a_b.export_pdf.lock"] /\
  a_out (artifact_of cfg (ExportTiff 300) (py "a_b"))
    = TIFF_DIR cfg ++ [py "a_b_300.tiff"] /\
  a_lock (artifact_of cfg (ExportTiff 300) (py "a_b"))
    = LOCK_DIR cfg ++ [py "a_b.export_tiff_300.lock"].
Proof.
  repeat split; try reflexivity; discriminate.
Qed.

(* ----------------------------------------------------------------- *)
(** ** What a prune leaves alone *)

Lemma fold_files_invariant {S} (P : S -> Prop) (g : S -> path -> world -> S)
  (dirs : list path) (w : world) :
  (forall s d p, P s -> In d dirs -> is_under d p = true -> P (g s p w)) ->
  forall s, P s -> P (fold_files g dirs w s).
Proof.
  intros Hg. unfold fold_files.
  assert (Hin : forall d, In d dirs -> In d dirs) by auto.
  revert Hin. generalize dirs at 1 3. intros ds.
  induction ds as [|d ds IH]; intros Hin s Hs; cbn; [exact Hs|].
  apply IH; [intros d' Hd'; apply Hin; now right|].
  destruct (exists_in d w); [|exact Hs].
  assert (Hfs : forall p, In p (files_under d w) -> is_under d p = true).
  { intros p Hp. unfold files_under in Hp.
    apply in_map_iff in Hp as [f [<- Hf]]. now apply filter_In in Hf. }
  revert s Hs Hfs. generalize (files_under d w) as ps.
  induction ps as [|p ps IHp]; intros s Hs Hfs; cbn; [exact Hs|].
  apply IHp; [|intros q Hq; apply Hfs; now right].
  apply (Hg s d p Hs); [apply Hin; now left|apply Hfs; now left].
Qed.

(** Every entry of the inventory lies under one of the directories. *)
Lemma inventory_under (dirs : list path) (w : world) (e : entry) :
  In e (inventory dirs w) ->
  exists d, In d dirs /\ is_under d (snd e) = true.
Proof.
  revert e. unfold inventory.
  apply (fold_files_invariant
           (fun es : list entry =>
              forall e, In e es -> exists d, In d dirs /\ is_under d (snd e) = true)).
  - intros es d p Hes Hd Hp e He.
    destruct (find_file p w); [|now apply Hes].
    apply in_app_or in He as [He|[<-|[]]]; [now apply Hes|].
    exists d. now split.
  - intros e [].
Qed.

Lemma deletable_of_In (keep_newest : Z) (es : list entry) (e : entry) :
  In e (deletable_of keep_newest es) -> In e es.
Proof.
  unfold deletable_of.
  destruct ((0 <? keep_newest) && (keep_newest <? Z.of_nat (List.length es)));
    [apply firstn_In|auto].
Qed.

(** The candidates of a prune lie under the directories it was given. *)
Lemma candidates_under (keep_newest : Z) (dirs : list path) (w : world)
  (e : entry) :
  In e (deletable_of keep_newest (sort_entries (inventory dirs w))) ->
  exists d, In d dirs /\ is_under d (snd e) = true.
Proof.
  intros H. apply deletable_of_In in H.
  apply (Permutation_in _ (sort_entries_perm _)) in H.
  now apply inventory_under in H.
Qed.

Lemma find_grow (lk p : path) (n : Z) (fs : list file) :
  p <> lk ->
  find (fun f => path_eqb (f_path f) p) (map (grow lk n) fs) =
  find (fun f => path_eqb (f_path f) p) fs.
Proof.
  intros Hne. induction fs as [|f fs IH]; cbn [map find]; [reflexivity|].
  assert (Hp : f_path (grow lk n f) = f_path f).
  { unfold grow. now destruct (path_eqb (f_path f) lk). }
  rewrite Hp. destruct (path_eqb (f_path f) p) eqn:E'; [|exact IH].
  f_equal. unfold grow. destruct (path_eqb (f_path f) lk) eqn:E; [|reflexivity].
  apply path_eqb_eq in E, E'. congruence.
Qed.

Lemma find_snoc_other (lk p : path) (f : file) (fs : list file) :
  p <> lk -> f_path f = lk ->
  find (fun f => path_eqb (f_path f) p) (fs ++ [f]) =
  find (fun f => path_eqb (f_path f) p) fs.
Proof.
  intros Hne Hf. induction fs as [|g fs IH]; cbn.
  - rewrite Hf. apply path_eqb_neq in Hne. rewrite path_eqb_sym in Hne.
    now rewrite Hne.
  - now rewrite IH.
Qed.

(** Creating the lock file [lk] leaves every other file as it is. *)
Lemma find_file_after_lock (X : externals) (lk p : path) (w : world) :
  p <> lk -> find_file p (after_lock X lk w) = find_file p w.
Proof.
  intros Hne. unfold find_file, after_lock. cbn [w_files].
  rewrite find_grow by exact Hne. now apply find_snoc_other with (lk := lk).
Qed.

(** A release of [lk] leaves every other file as it is. *)
Lemma find_file_after_release (fd : option Z) (lk p : path) (w : world) :
  p <> lk -> find_file p (after_release fd lk w) = find_file p w.
Proof.
  intros Hne. unfold find_file, after_release. cbn [w_files].
  destruct (refused w lk); [reflexivity|].
  rewrite find_without. cbn. rewrite orb_false_r.
  apply path_eqb_neq in Hne. now rewrite Hne.
Qed.

Lemma find_file_after_unlinks (w : world) (tried : list entry) (p : path) :
  find_file p (after_unlinks w tried) =
  if existsb (path_eqb p) (map snd (removable w tried)) then None
  else find_file p w.
Proof. unfold find_file, after_unlinks. cbn [w_files]. apply find_without. Qed.

Lemma is_dir_after_mkdir_longer (d p : path) (w : world) :
  (List.length d < List.length p)%nat ->
  is_dir p (after_mkdir d w) = is_dir p w.
Proof.
  intros Hlen. unfold is_dir, after_mkdir. cbn [w_dirs]. rewrite existsb_app.
  destruct (existsb (path_eqb p) (filter _ (prefixes d))) eqn:E.
  - apply existsb_path_In in E. apply filter_In in E as [E _].
    apply prefixes_length in E. lia.
  - apply orb_false_r.
Qed.

Section PruneFrame.

Context (X : externals) (cfg : config).

(** What a call of [prune_cache_if_needed] can do to the world beyond its
    log: the descriptor table is as before; a file other than the prune
    lock is either as before or gone, and it is as before when it does not
    lie under the pruned directories; a path longer than the lock
    directory is a directory after the call only if it was one before. *)
Lemma prune_frame (max_bytes : option Z) (dirs : option (list path))
  (keep_newest : Z) (w : world) :
  let ds := match dirs with None => CACHE_DIRS cfg | Some ds => ds end in
  let w' := snd (prune_cache_if_needed X cfg max_bytes dirs keep_newest w) in
  w_fds w' = w_fds w /\
  (forall p, p <> prune_lock_path cfg ->
     (find_file p w' = find_file p w \/ find_file p w' = None) /\
     ((forall d, In d ds -> is_under d p = false) ->
      find_file p w' = find_file p w) /\
     ((List.length (LOCK_DIR cfg) < List.length p)%nat ->
      is_dir p w' = is_dir p w)).
Proof.
  intros ds w'. subst w'.
  unfold prune_cache_if_needed. rewrite bind_run. cbn [time_time gets].
  set (mb := match max_bytes with None => _ | Some m => m end).
  fold ds. rewrite bind_run.
  destruct (scans_total_size_bytes ds w) as [e [E F]]. rewrite E.
  destruct (total_size ds w <=? mb).
  { cbn. split; [reflexivity|]. intros p Hp. repeat split; auto. }
  destruct (exists_in (prune_lock_path cfg) (with_log e w)) eqn:Hl.
  - destruct (prune_over_budget_busy X cfg (w_now w) (total_size ds w) mb ds
                keep_newest (with_log e w) Hl) as [e' [_ H]].
    rewrite H. cbn [snd]. split; [reflexivity|]. intros p Hp.
    split; [now left|]. split; [reflexivity|].
    intros Hlen.
    transitivity (is_dir p (after_mkdir (LOCK_DIR cfg) w)); [reflexivity|].
    now apply is_dir_after_mkdir_longer.
  - destruct (prune_over_budget_free X cfg (w_now w) (total_size ds w) mb ds
                keep_newest (with_log e w) Hl)
      as [tried [rest [e1 [e2 [Hc [_ [_ [H _]]]]]]]].
    rewrite H. cbn [snd]. split.
    + unfold after_release. cbn [w_fds with_log after_unlinks after_lock after_mkdir].
      cbn [filter fst]. rewrite Z.eqb_refl. cbn [negb].
      apply filter_fd_absent. apply (fresh_fd_not_open (with_log e w)).
    + intros p Hp.
      assert (Hfind :
        find_file p (after_release (Some (fresh_fd (with_log e w)))
                       (prune_lock_path cfg)
                       (with_log e2
                          (after_unlinks
                             (with_log e1
                                (after_lock X (prune_lock_path cfg)
                                   (after_mkdir (LOCK_DIR cfg) (with_log e w))))
                             tried)))
        = if existsb (path_eqb p)
               (map snd (removable
                           (after_lock X (prune_lock_path cfg)
                              (after_mkdir (LOCK_DIR cfg) (with_log e w))) tried))
          then None else find_file p w).
      { rewrite find_file_after_release by exact Hp.
        change (find_file p (with_log e2 ?x)) with (find_file p x).
        rewrite find_file_after_unlinks.
        change (find_file p (with_log e1 ?x)) with (find_file p x).
        rewrite find_file_after_lock by exact Hp. reflexivity. }
      rewrite Hfind. clear Hfind.
      split; [|split].
      * destruct (existsb _ _); auto.
      * intros Hout.
        destruct (existsb _ _) eqn:Ex; [|reflexivity]. exfalso.
        apply existsb_path_In, in_map_iff in Ex as [x [<- Hx]].
        apply filter_In in Hx as [Hx _].
        assert (Hin : In x (tried ++ rest)) by (apply in_or_app; now left).
        rewrite <- Hc in Hin. apply candidates_under in Hin as [d [Hd Hu]].
        rewrite Hout in Hu by exact Hd. discriminate.
      * intros Hlen.
        transitivity (is_dir p (after_mkdir (LOCK_DIR cfg) w)); [reflexivity|].
        now apply is_dir_after_mkdir_longer.
Qed.

End PruneFrame.

(* ----------------------------------------------------------------- *)
(** ** What a render leaves alone *)

Lemma savefig_run (p : path) (n : Z) (w : world) :
  savefig p n w = (inr tt, after_savefig p n w).
Proof.
  unfold savefig, after_savefig, time_time, bind, emit, gets, set_files.
  cbn -[is_file].
  change (is_file p (mkWorld _ _ _ _ _ _)) with (is_file p w).
  now destruct (is_file p w).
Qed.

Lemma find_rewrite_other (q p : path) (now n : Z) (fs : list file) :
  p <> q ->
  find (fun f => path_eqb (f_path f) p) (map (rewrite_file q now n) fs) =
  find (fun f => path_eqb (f_path f) p) fs.
Proof.
  intros Hne. induction fs as [|f fs IH]; cbn [map find]; [reflexivity|].
  assert (Hp : f_path (rewrite_file q now n f) = f_path f).
  { unfold rewrite_file. now destruct (path_eqb (f_path f) q). }
  rewrite Hp. destruct (path_eqb (f_path f) p) eqn:E'; [|exact IH].
  f_equal. unfold rewrite_file.
  destruct (path_eqb (f_path f) q) eqn:E; [|reflexivity].
  apply path_eqb_eq in E, E'. congruence.
Qed.

Lemma find_file_after_savefig (q p : path) (n : Z) (w : world) :
  p <> q -> find_file p (after_savefig q n w) = find_file p w.
Proof.
  intros Hne. unfold find_file, after_savefig. cbn [w_files].
  destruct (is_file q w).
  - now apply find_rewrite_other.
  - now apply find_snoc_other with (lk := q).
Qed.

Lemma find_rewrite_self (q : path) (now n : Z) (fs : list file) :
  find (fun f => path_eqb (f_path f) q) fs <> None ->
  find (fun f => path_eqb (f_path f) q) (map (rewrite_file q now n) fs) <> None.
Proof.
  induction fs as [|f fs IH]; cbn [map find]; [auto|].
  assert (Hp : f_path (rewrite_file q now n f) = f_path f).
  { unfold rewrite_file. now destruct (path_eqb (f_path f) q). }
  rewrite Hp. destruct (path_eqb (f_path f) q); [discriminate|exact IH].
Qed.

Lemma find_snoc_self (q : path) (f : file) (fs : list file) :
  f_path f = q -> find (fun f => path_eqb (f_path f) q) (fs ++ [f]) <> None.
Proof.
  intros Hf. induction fs as [|g fs IH]; cbn.
  - rewrite Hf, path_eqb_refl. discriminate.
  - destruct (path_eqb (f_path g) q); [discriminate|exact IH].
Qed.

(** After [savefig] the file is there. *)
Lemma is_file_after_savefig (q : path) (n : Z) (w : world) :
  is_file q (after_savefig q n w) = true.
Proof.
  unfold is_file at 1. unfold find_file, after_savefig. cbn [w_files].
  destruct (is_file q w) eqn:E.
  - unfold is_file, find_file in E.
    pose proof (find_rewrite_self q (w_now w) n (w_files w)) as H.
    destruct (find _ (map _ _)); [reflexivity|].
    exfalso. apply H; [|reflexivity].
    destruct (find _ (w_files w)); [discriminate|discriminate].
  - pose proof (find_snoc_self q (mkFile q (w_now w) n false) (w_files w) eq_refl)
      as H.
    destruct (find _ (_ ++ _)); [reflexivity|contradiction].
Qed.

Section DrawFrame.

Context (X : externals) (cfg : config).

Lemma load_adata_only_logs (library layer : pystr) :
  respects (only_logs is_data_read) (_load_adata X cfg library layer).
Proof. unfold _load_adata, _adata_path. only_logs_auto. Qed.

(** How a call of [_draw] ends: it fails after reading or after creating
    the output directory, or it returns after it has saved the figure. *)
Lemma draw_run (library gene layer basis : pystr) (out : path) (fmt : format)
  (dpi : option Z) (w : world) :
  exists evs,
    forallb is_data_read evs = true /\
    ((exists e, _draw X cfg library gene layer basis out fmt dpi w
                = (inl e, with_log evs w))
     \/ (exists e, _draw X cfg library gene layer basis out fmt dpi w
                   = (inl e, after_mkdir (parent out) (with_log evs w)))
     \/ (exists n, _draw X cfg library gene layer basis out fmt dpi w
                   = (inr tt, after_savefig out n
                                (after_mkdir (parent out) (with_log evs w))))).
Proof.
  remember (_draw X cfg library gene layer basis out fmt dpi w) as res eqn:Hres.
  unfold _draw in Hres. rewrite bind_run in Hres.
  destruct (load_adata_only_logs library layer w) as [evs [E F]].
  exists evs. split; [exact F|].
  destruct (_load_adata X cfg library layer w) as [[e|adata] w1];
    cbn [snd] in E; subst w1; [left; eauto|].
  rewrite bind_run in Hres. unfold _check_gene_exists in Hres.
  destruct (negb _); [left; unfold raise in Hres; eauto|].
  unfold ret at 1 in Hres. rewrite bind_run, mkdir_p_run in Hres.
  destruct fmt.
  - destruct dpi as [d|]; [|right; left; unfold raise in Hres; eauto].
    destruct (d <=? 0); [right; left; unfold raise in Hres; eauto|].
    right; right. rewrite savefig_run in Hres. eauto.
  - right; right. rewrite savefig_run in Hres. eauto.
  - destruct dpi as [d|]; [|right; left; unfold raise in Hres; eauto].
    destruct (d <=? 0); [right; left; unfold raise in Hres; eauto|].
    right; right. rewrite savefig_run in Hres. eauto.
Qed.

(** What a call of [_draw] can do to the world beyond its log: the
    descriptor table is as before, every file but the output is as before,
    a path longer than the output directory is a directory only if it was
    one, and after a normal return the output file exists. *)
Lemma draw_frame (library gene layer basis : pystr) (out : path) (fmt : format)
  (dpi : option Z) (w : world) :
  let r := fst (_draw X cfg library gene layer basis out fmt dpi w) in
  let w' := snd (_draw X cfg library gene layer basis out fmt dpi w) in
  w_fds w' = w_fds w /\
  (forall p, p <> out -> find_file p w' = find_file p w) /\
  (forall p, (List.length (parent out) < List.length p)%nat ->
             is_dir p w' = is_dir p w) /\
  (r = inr tt -> is_file out w' = true).
Proof.
  intros r w'. subst r w'.
  destruct (draw_run library gene layer basis out fmt dpi w)
    as [evs [_ [[e H]|[[e H]|[n H]]]]]; rewrite H; cbn [fst snd].
  - repeat split; try reflexivity. discriminate.
  - repeat split; try reflexivity; [|discriminate].
    intros p Hlen.
    transitivity (is_dir p (after_mkdir (parent out) w)); [reflexivity|].
    now apply is_dir_after_mkdir_longer.
  - repeat split; try reflexivity.
    + intros p Hp. now rewrite find_file_after_savefig.
    + intros p Hlen.
      transitivity (is_dir p (after_mkdir (parent out) w)); [reflexivity|].
      now apply is_dir_after_mkdir_longer.
    + intros _. apply is_file_after_savefig.
Qed.

End DrawFrame.

(* ----------------------------------------------------------------- *)
(** ** Where the artifacts and their locks are *)

Lemma split_slash_name (s : pystr) : ~ In 47%N s -> split_slash s = [s].
Proof.
  induction s as [|c s IH]; intros H; cbn; [reflexivity|].
  destruct (c =? 47)%N eqn:E.
  - apply N.eqb_eq in E. exfalso. apply H. now left.
  - rewrite IH; [reflexivity|]. intros Hin. apply H. now right.
Qed.

(** Joining a directory and a name without separator appends one
    component. *)
Lemma path_div_name (d : path) (s : pystr) :
  ~ In 47%N s -> (2 <= List.length s)%nat -> path_div d s = d ++ [s].
Proof.
  intros Hs Hlen. destruct s as [|c s]; [cbn in Hlen; lia|].
  unfold path_div. destruct (c =? 47)%N eqn:E.
  - apply N.eqb_eq in E. exfalso. apply Hs. now left.
  - unfold path_parts. rewrite split_slash_name by exact Hs.
    cbn [filter]. destruct s as [|c' s]; [cbn in Hlen; lia|].
    cbn. now destruct (c =? 46)%N.
Qed.

Lemma is_under_app_same (a b c : path) :
  is_under (a ++ b) (a ++ c) = is_under b c.
Proof.
  induction a as [|x a IH]; cbn; [reflexivity|].
  now rewrite str_eqb_refl, IH.
Qed.

Lemma key_no_separator (X : externals) (raw key : pystr) :
  _safe_gene X raw = inr key -> ~ In 47%N key /\ (1 <= List.length key)%nat.
Proof.
  intros H. apply safe_gene_key in H as [Hne Hk]. split.
  - intros Hin. rewrite Forall_forall in Hk. apply Hk in Hin.
    apply kept_not_separator in Hin. tauto.
  - destruct key; [congruence|cbn; lia].
Qed.

Lemma not_in_app {A} (x : A) (a b : list A) :
  ~ In x a -> ~ In x b -> ~ In x (a ++ b).
Proof. intros Ha Hb H. apply in_app_or in H. tauto. Qed.

Lemma cache_dir_cases (cfg : config) (d : path) :
  In d (CACHE_DIRS cfg) ->
  d = FIGURE_DIR cfg ++ [py "png"] \/ d = FIGURE_DIR cfg ++ [py "pdf"]
  \/ d = FIGURE_DIR cfg ++ [py "tiff"].
Proof.
  unfold CACHE_DIRS. rewrite PNG_DIR_eq, PDF_DIR_eq, TIFF_DIR_eq. cbn.
  intros [<-|[<-|[<-|[]]]]; auto.
Qed.

(** The artifact of an accepted key and a supported quality parameter is
    well placed. *)
Lemma artifact_well_placed (X : externals) (cfg : config) (k : kind)
  (raw key : pystr) :
  _safe_gene X raw = inr key -> supported k = true ->
  well_placed cfg (artifact_of cfg k key).
Proof.
  intros Hkey Hsup. apply key_no_separator in Hkey as [Hsep Hlen].
  assert (Hname : forall suffix,
            ~ In 47%N suffix -> (1 <= List.length suffix)%nat ->
            forall d, path_div d (key ++ suffix) = d ++ [key ++ suffix]).
  { intros suffix H1 H2 d. apply path_div_name.
    - now apply not_in_app.
    - rewrite length_app. unfold pystr, pychar in *. lia. }
  assert (Hlock : forall suffix,
            (12 <= List.length suffix)%nat -> key ++ suffix <> py "_prune.lock").
  { intros suffix H E. apply (f_equal (@List.length _)) in E.
    rewrite length_app in E. cbn in E. unfold pystr, pychar in *. lia. }
  destruct k as [dpi| |dpi]; unfold artifact_of, well_placed.
  - unfold plot_png_artifact. cbn [a_out a_lock].
    rewrite !Hname by (cbn; try lia; intuition discriminate).
    split.
    + exists (PNG_DIR cfg), (key ++ py ".png"). split; [now left|reflexivity].
    + eexists. split; [reflexivity|]. apply Hlock. cbn. lia.
  - unfold export_pdf_artifact. cbn [a_out a_lock].
    rewrite !Hname by (cbn; try lia; intuition discriminate).
    split.
    + exists (PDF_DIR cfg), (key ++ py ".pdf").
      split; [right; now left|reflexivity].
    + eexists. split; [reflexivity|]. apply Hlock. cbn. lia.
  - unfold export_tiff_artifact. cbn [a_out a_lock].
    cbn in Hsup. rewrite !orb_false_r in Hsup.
    assert (Hd : dpi = 150 \/ dpi = 300 \/ dpi = 600 \/ dpi = 1200).
    { destruct (dpi =? 150) eqn:E1; [apply Z.eqb_eq in E1; auto|].
      destruct (dpi =? 300) eqn:E2; [apply Z.eqb_eq in E2; auto|].
      destruct (dpi =? 600) eqn:E3; [apply Z.eqb_eq in E3; auto|].
      destruct (dpi =? 1200) eqn:E4; [apply Z.eqb_eq in E4; auto|].
      discriminate. }
    destruct Hd as [-> | [-> | [-> | ->]]];
      (rewrite !Hname by (cbn; try lia; intuition discriminate);
       split;
       [ eexists (TIFF_DIR cfg), _;
         split; [right; right; now left|reflexivity]
       | eexists; split; [reflexivity|]; apply Hlock; cbn; lia ]).
Qed.

(** What follows from being well placed. *)
Lemma well_placed_facts (cfg : config) (a : artifact) :
  well_placed cfg a ->
  a_out a <> a_lock a /\
  a_lock a <> prune_lock_path cfg /\
  a_out a <> prune_lock_path cfg /\
  parent (a_lock a) = LOCK_DIR cfg /\
  (forall d, In d (CACHE_DIRS cfg) -> is_under d (a_lock a) = false) /\
  List.length (a_out a) = S (List.length (LOCK_DIR cfg)) /\
  List.length (a_lock a) = S (List.length (LOCK_DIR cfg)) /\
  List.length (parent (a_out a)) = List.length (LOCK_DIR cfg).
Proof.
  intros [[d [n [Hd Hout]]] [m [Hlock Hm]]].
  rewrite Hout, Hlock, prune_lock_path_eq, !parent_snoc, LOCK_DIR_eq.
  assert (Hdl : forall x y, d ++ [x] <> (FIGURE_DIR cfg ++ [py "locks"]) ++ [y]).
  { intros x y E. rewrite <- app_assoc in E.
    apply cache_dir_cases in Hd as [-> | [-> | ->]]; rewrite <- app_assoc in E;
      apply app_inv_head in E; vm_compute in E; discriminate. }
  assert (Hlen : List.length d = List.length (FIGURE_DIR cfg ++ [py "locks"])).
  { apply cache_dir_cases in Hd as [-> | [-> | ->]]; rewrite !length_app; reflexivity. }
  repeat split.
  - apply Hdl.
  - intros E. apply app_inv_head in E. congruence.
  - apply Hdl.
  - intros d' Hd'. rewrite <- app_assoc.
    apply cache_dir_cases in Hd' as [-> | [-> | ->]]; rewrite is_under_app_same;
      reflexivity.
  - rewrite length_app, Hlen. cbn [List.length]. lia.
  - rewrite length_app. cbn [List.length]. lia.
  - exact Hlen.
Qed.

(* ----------------------------------------------------------------- *)
(** ** Concurrent calls: counting *)

Lemma count_set_nth (P : pc -> bool) (calls : list (request * pc)) (i : nat)
  (rq : request) (p p' : pc) :
  nth_error calls i = Some (rq, p) ->
  (count_pcs P (set_nth i (rq, p') calls) + b2n (P p)
   = count_pcs P calls + b2n (P p'))%nat.
Proof.
  unfold count_pcs. revert i. induction calls as [|c calls IH]; intros i H.
  - destruct i; discriminate.
  - destruct i as [|i]; cbn in H.
    + injection H as ->. cbn. destruct (P p), (P p'); cbn; lia.
    + specialize (IH i H). cbn. destruct (P (snd c)); cbn; lia.
Qed.

Lemma count_at_least (P : pc -> bool) (calls : list (request * pc)) (i : nat)
  (rq : request) (p : pc) :
  nth_error calls i = Some (rq, p) -> P p = true ->
  (1 <= count_pcs P calls)%nat.
Proof.
  unfold count_pcs. revert i. induction calls as [|c calls IH]; intros i H Hp.
  - destruct i; discriminate.
  - destruct i as [|i]; cbn in H.
    + injection H as ->. cbn. rewrite Hp. cbn. lia.
    + specialize (IH i H Hp). cbn. destruct (P (snd c)); cbn; lia.
Qed.

(** Two different kinds of place inside the region: their calls add up. *)
Lemma count_region_split (calls : list (request * pc)) :
  (count_pcs in_region calls
   = count_pcs rendering calls
     + count_pcs (fun p => in_region p && negb (rendering p)) calls)%nat.
Proof.
  unfold count_pcs. induction calls as [|c calls IH]; [reflexivity|].
  cbn. destruct (snd c); cbn; lia.
Qed.

Lemma Forall_set_nth {A} (P : A -> Prop) (l : list A) (i : nat) (x : A) :
  Forall P l -> P x -> Forall P (set_nth i x l).
Proof.
  revert i. induction l as [|y l IH]; intros i Hl Hx.
  - destruct i; constructor.
  - inversion Hl; subst. destruct i; cbn; constructor; auto.
Qed.

Lemma Forall_nth_error {A} (P : A -> Prop) (l : list A) (i : nat) (x : A) :
  Forall P l -> nth_error l i = Some x -> P x.
Proof.
  intros Hl H. apply nth_error_In in H. rewrite Forall_forall in Hl. auto.
Qed.

(* ----------------------------------------------------------------- *)
(** ** Concurrent calls: one step *)

Lemma is_file_after_lock (X : externals) (lk : path) (w : world) :
  is_file lk (after_lock X lk w) = true.
Proof.
  unfold is_file, find_file, after_lock. cbn [w_files].
  rewrite map_app. cbn [map]. 
  set (f := grow lk _ _).
  assert (Hf : f_path f = lk).
  { unfold f, grow. cbn. now rewrite path_eqb_refl. }
  pose proof (find_snoc_self lk f (map (grow lk (lock_payload_len X (w_now w)))
                                     (w_files w)) Hf) as H.
  destruct (find _ _); [reflexivity|contradiction].
Qed.

Lemma exists_in_after_lock (X : externals) (lk p : path) (w : world) :
  p <> lk -> exists_in p (after_lock X lk w) = exists_in p w.
Proof.
  intros Hne. unfold exists_in, is_file. now rewrite find_file_after_lock.
Qed.

Lemma exists_in_after_release (fd : option Z) (lk p : path) (w : world) :
  p <> lk -> exists_in p (after_release fd lk w) = exists_in p w.
Proof.
  intros Hne. unfold exists_in, is_file. now rewrite find_file_after_release.
Qed.

Section Steps.

Context (X : externals) (cfg : config) (a : artifact).
Context (Hplaced : well_placed cfg a).

Let facts := well_placed_facts cfg a Hplaced.

(** What one step of a call does to the lock file and to the artifact,
    by the place the call leaves and the place it reaches. *)
Lemma call_step_local (rq : request) (p p' : pc) (n : note) (w w' : world) :
  pc_ok a p ->
  call_step X cfg a rq p w = (p', n, w') ->
  pc_ok a p' /\
  (in_region p = false -> in_region p' = true ->
   is_file (a_lock a) w = false) /\
  (in_region p' = true ->
   (in_region p = true -> is_file (a_lock a) w = true ->
    is_file (a_lock a) w' = true) /\
   (in_region p = false -> is_file (a_lock a) w' = true)) /\
  (in_region p = false -> in_region p' = false ->
   is_file (a_lock a) w' = is_file (a_lock a) w) /\
  (rendering p' = true ->
   (rendering p = true -> exists_in (a_out a) w = false ->
    exists_in (a_out a) w' = false) /\
   (rendering p = false -> exists_in (a_out a) w' = false)) /\
  (in_region p = false -> exists_in (a_out a) w' = exists_in (a_out a) w) /\
  (rendering p = false -> exists_in (a_out a) w = true ->
   exists_in (a_out a) w' = true) /\
  (n = DrawSucceeded -> exists_in (a_out a) w' = true) /\
  (n <> Quiet -> rendering p = true) /\
  (is_fresh p' = true -> is_fresh p = true \/ n = DrawSucceeded).
Proof.
  destruct facts as [Hol [Hlp [Hop [Hpar [Hund [Hlo [Hll Hpo]]]]]]].
  intros Hok Hstep. destruct p as [| |self start|self|self|self|self r|r];
    cbn [call_step] in Hstep; cbn [pc_ok] in Hok.
  - (* AtCheck *)
    rewrite path_exists_run in Hstep.
    destruct (exists_in (a_out a) w) eqn:Ho; injection Hstep as <- <- <-;
      cbn; repeat split; auto; try discriminate; try tauto.
  - (* AtEnter *)
    rewrite bind_run, mkdir_p_run in Hstep. cbn [time_time gets] in Hstep.
    injection Hstep as <- <- <-.
    assert (Ho : exists_in (a_out a) (after_mkdir (parent (a_lock a)) w)
                 = exists_in (a_out a) w).
    { apply exists_in_after_mkdir. rewrite Hpar, Hlo. lia. }
    cbn; repeat split; auto; try discriminate; try tauto; now rewrite Ho.
  - (* AtSpin *)
    rewrite try_lock_run, acquire_prune_lock_run, Hok in Hstep.
    destruct (exists_in (a_lock a) w) eqn:Hl.
    + destruct (timeout_s self <? _); injection Hstep as <- <- <-;
        cbn; repeat split; auto; try discriminate; try tauto.
    + apply orb_false_iff in Hl as [Hl _].
      destruct (is_dir (parent (a_lock a)) w); injection Hstep as <- <- <-;
        cbn [pc_ok in_region rendering is_fresh set_fd lock_path];
        repeat split; auto; try discriminate; try tauto; intros;
        try apply is_file_after_lock;
        try (rewrite exists_in_after_lock by exact Hol; assumption).
      now rewrite exists_in_after_lock by exact Hol.
  - (* AtRecheck *)
    rewrite path_exists_run in Hstep.
    destruct (exists_in (a_out a) w) eqn:Ho; injection Hstep as <- <- <-;
      cbn; repeat split; auto; try discriminate; try tauto.
  - (* AtPrune *)
    pose proof (prune_frame X cfg None None 0 w) as [_ Hfr].
    cbn zeta in Hfr.
    destruct (Hfr (a_lock a) Hlp) as [_ [Hlk _]].
    destruct (Hfr (a_out a) Hop) as [Hout [_ Hdir]].
    specialize (Hlk Hund). specialize (Hdir ltac:(rewrite Hlo; lia)).
    assert (Ho : exists_in (a_out a) w = false ->
                 exists_in (a_out a)
                   (snd (prune_cache_if_needed X cfg None None 0 w)) = false).
    { unfold exists_in, is_file. rewrite Hdir. intros H.
      apply orb_false_iff in H as [H1 H2]. rewrite H2, orb_false_r.
      destruct Hout as [-> | ->]; [exact H1|reflexivity]. }
    assert (Hl : is_file (a_lock a)
                   (snd (prune_cache_if_needed X cfg None None 0 w))
                 = is_file (a_lock a) w).
    { unfold is_file. now rewrite Hlk. }
    destruct (prune_cache_if_needed X cfg None None 0 w) as [[e|res] w1];
      cbn [snd] in *; injection Hstep as <- <- <-;
      cbn [pc_ok in_region rendering is_fresh];
      repeat split; auto; try discriminate; try tauto; intros; congruence.
  - (* AtDraw *)
    pose proof (draw_frame X cfg (r_library rq) (a_gene a) (r_layer rq)
                  (r_basis rq) (a_out a) (a_fmt a) (a_dpi a) w)
      as [_ [Hfile [_ Hdone]]].
    assert (Hl : is_file (a_lock a)
                   (snd (_draw X cfg (r_library rq) (a_gene a) (r_layer rq)
                           (r_basis rq) (a_out a) (a_fmt a) (a_dpi a) w))
                 = is_file (a_lock a) w).
    { unfold is_file. rewrite Hfile; [reflexivity|]. congruence. }
    destruct (_draw X cfg (r_library rq) (a_gene a) (r_layer rq) (r_basis rq)
                (a_out a) (a_fmt a) (a_dpi a) w) as [[e|[]] w1];
      cbn [fst snd] in *; injection Hstep as <- <- <-;
      cbn [pc_ok in_region rendering is_fresh];
      repeat split; auto; try discriminate; try tauto; intros;
      try congruence.
    unfold exists_in. now rewrite Hdone.
  - (* AtExit *)
    rewrite release_run, Hok in Hstep.
    assert (Ho : exists_in (a_out a) (after_release (_fd self) (a_lock a) w)
                 = exists_in (a_out a) w).
    { now apply exists_in_after_release. }
    destruct (match _fd self with Some _ => _ | None => _ end);
      injection Hstep as <- <- <-;
      cbn [pc_ok in_region rendering is_fresh];
      repeat split; auto; try discriminate; try tauto; intros;
      try congruence.
  - (* Done *)
    injection Hstep as <- <- <-.
    cbn; repeat split; auto; try discriminate; try tauto.
Qed.

End Steps.

(* ----------------------------------------------------------------- *)
(** ** Concurrent calls: the invariant *)

Section Invariant.

Context (X : externals) (cfg : config) (a : artifact).
Context (Hplaced : well_placed cfg a).

(** Uses the hypotheses whose premises are settled and drops those whose
    premises cannot hold. *)
Ltac settle :=
  repeat match goal with
         | H : ?x = ?x -> _ |- _ => specialize (H eq_refl)
         | H : true = false -> _ |- _ => clear H
         | H : false = true -> _ |- _ => clear H
         | H : ?x <> ?x -> _ |- _ => clear H
         | H : ?P /\ ?Q |- _ => destruct H
         | H : Quiet <> DrawFailed -> _ |- _ => clear H
         | H : DrawFailed <> Quiet -> _ |- _ =>
             specialize (H ltac:(discriminate))
         | H : DrawSucceeded <> Quiet -> _ |- _ =>
             specialize (H ltac:(discriminate))
         | H : Quiet = DrawSucceeded -> _ |- _ => clear H
         | H : DrawFailed = DrawSucceeded -> _ |- _ => clear H
         end.

Lemma safe_issue (w : world) (rqs : list request) : safe a (issue w rqs).
Proof.
  unfold safe, issue, count_pcs. cbn [s_world s_calls s_draws s_drawn].
  assert (H : forall P, (forall rq, P (rq, AtCheck) = false) ->
                        filter P (map (fun rq => (rq, AtCheck)) rqs) = []).
  { intros P HP. induction rqs as [|rq l IH]; cbn; [reflexivity|].
    now rewrite HP. }
  rewrite !H by reflexivity. cbn.
  repeat split; try lia; try discriminate.
  apply Forall_forall. intros c Hc. apply in_map_iff in Hc as [rq [<- _]].
  exact I.
Qed.

Lemma safe_step (act : action) (s s' : system) :
  safe a s -> sys_step X cfg a act s = Some s' -> safe a s'.
Proof.
  intros [Hok [H1 [H2 [H3 [H4 [H5 [H6 H7]]]]]]] Hstep.
  destruct act as [i|ms]; cbn [sys_step] in Hstep.
  - destruct (nth_error (s_calls s) i) as [[rq p]|] eqn:Hi; [|discriminate].
    destruct (is_done p) eqn:Hd; [discriminate|].
    destruct (call_step X cfg a rq p (s_world s)) as [[p' n] w'] eqn:Hc.
    injection Hstep as <-.
    pose proof (Forall_nth_error _ _ _ _ Hok Hi) as Hp. cbn [snd] in Hp.
    destruct (call_step_local X cfg a Hplaced rq p p' n (s_world s) w' Hp Hc)
      as [F0 [F1 [F2 [F3 [F4 [F5 [F6 [F7 [F8 F9]]]]]]]]].
    pose proof (count_set_nth in_region _ _ _ _ p' Hi) as Cr.
    pose proof (count_set_nth rendering _ _ _ _ p' Hi) as Cd.
    pose proof (count_set_nth is_fresh _ _ _ _ p' Hi) as Cf.
    pose proof (count_region_split (s_calls s)) as Sp.
    pose proof (count_at_least in_region _ _ _ _ Hi) as Ar.
    pose proof (count_at_least rendering _ _ _ _ Hi) as Ad.
    pose proof (count_at_least (fun p => in_region p && negb (rendering p))
                  _ _ _ _ Hi) as Aw.
    assert (Hsub : rendering p = true -> in_region p = true)
      by (destruct p; cbn; congruence).
    assert (Hsub' : rendering p' = true -> in_region p' = true)
      by (destruct p'; cbn; congruence).
    unfold safe. cbn [s_world s_calls s_draws s_drawn].
    split; [now apply Forall_set_nth|].
    cbn [snd] in Aw.
    destruct (in_region p) eqn:Rp, (in_region p') eqn:Rp',
             (rendering p) eqn:Dp, (rendering p') eqn:Dp',
             (is_fresh p) eqn:Fp, (is_fresh p') eqn:Fp';
      cbn [b2n andb negb] in *; settle;
      try discriminate;
      destruct n; settle;
      try match goal with H : _ \/ _ |- _ => destruct H; try discriminate end;
      repeat split; intros; try lia; try congruence;
      try (exfalso; lia);
      try (destruct (exists_in (a_out a) (s_world s)) eqn:Eo;
           destruct (is_file (a_lock a) (s_world s)) eqn:El;
           settle; try congruence; try lia;
           intuition (try congruence; try lia)).
  - destruct (0 <? ms); [|discriminate]. injection Hstep as <-.
    unfold safe. cbn [s_world s_calls s_draws s_drawn].
    repeat split; auto.
Qed.

Lemma safe_run (sched : list action) (s s' : system) :
  safe a s -> run X cfg a sched s = Some s' -> safe a s'.
Proof.
  revert s. induction sched as [|act sched IH]; intros s Hs Hrun; cbn in Hrun.
  - now injection Hrun as <-.
  - destruct (sys_step X cfg a act s) as [s1|] eqn:E; [|discriminate].
    apply (IH s1); [|exact Hrun]. now apply (safe_step act s).
Qed.

Lemma run_calls_length (sched : list action) (s s' : system) :
  run X cfg a sched s = Some s' ->
  List.length (s_calls s') = List.length (s_calls s).
Proof.
  revert s. induction sched as [|act sched IH]; intros s Hrun; cbn in Hrun.
  - now injection Hrun as <-.
  - destruct (sys_step X cfg a act s) as [s1|] eqn:E; [|discriminate].
    rewrite (IH s1 Hrun). clear IH Hrun.
    destruct act as [i|ms]; cbn in E.
    + destruct (nth_error (s_calls s) i) as [[rq p]|]; [|discriminate].
      destruct (is_done p); [discriminate|].
      destruct (call_step X cfg a rq p (s_world s)) as [[p' n] w'].
      injection E as <-. cbn. clear. revert i.
      induction (s_calls s) as [|c l IH]; intros [|i]; cbn; auto.
    + destruct (0 <? ms); [|discriminate]. now injection E as <-.
Qed.

End Invariant.

(* ----------------------------------------------------------------- *)
(** ** Concurrent calls for one artifact *)

(** C1, as the code has it. Take any number of concurrent calls for one
    artifact (an accepted key, a supported quality parameter), running
    alone over the cache. In every state they can reach: at most one call
    is inside the region its lock protects, so no two of them prune or
    render at the same time; at most one [_draw] has returned normally; a
    call is between its missed second test and the end of its [_draw] only
    while none has; and no more calls have a result with
    [cache_hit = False] than [_draw] calls have returned normally, so all
    other calls that are done returned a cache hit or raised (a lock
    timeout, or the failure of their own prune, render or release). *)
Theorem concurrent_calls_render_one_at_a_time (X : externals) (cfg : config)
  (k : kind) (raw key : pystr) (w : world) (rqs : list request) (s : system) :
  _safe_gene X raw = inr key ->
  supported k = true ->
  reachable X cfg (artifact_of cfg k key) w rqs s ->
  List.length (s_calls s) = List.length rqs /\
  (count_pcs in_region (s_calls s) <= 1)%nat /\
  (s_drawn s <= 1)%nat /\
  (count_pcs rendering (s_calls s) = 1%nat -> s_drawn s = 0%nat) /\
  (count_pcs is_fresh (s_calls s) <= s_drawn s)%nat /\
  (s_drawn s <= s_draws s)%nat.
Proof.
  intros Hkey Hsup [sched Hrun].
  pose proof (artifact_well_placed X cfg k raw key Hkey Hsup) as Hwp.
  pose proof (safe_run X cfg _ Hwp sched _ _ (safe_issue _ w rqs) Hrun)
    as [_ [H1 [_ [H3 [H4 [H5 [H6 H7]]]]]]].
  apply run_calls_length in Hrun. unfold issue in Hrun. cbn in Hrun.
  rewrite length_map in Hrun.
  repeat split; try assumption.
  intros Hr. specialize (H3 Hr).
  destruct (s_drawn s) as [|[|n]]; [reflexivity| |lia].
  rewrite H5 in H3 by reflexivity. discriminate.
Qed.

(** Two calls for the figure of [Gfap]: one renders, the other gets a
    hit. *)
Lemma concurrent_calls_render_one_at_a_time_witness :
  outcome (Some after_two_gfap_calls)
  = Some ([Done (inr (mkRenderResult (py "Gfap") gfap_png false));
           Done (inr (mkRenderResult (py "Gfap") gfap_png true))],
          1%nat, 1%nat) /\
  (count_pcs in_region (s_calls after_two_gfap_calls) <= 1)%nat /\
  (s_drawn after_two_gfap_calls <= 1)%nat.
Proof.
  split; [vm_compute; reflexivity|].
  assert (Hreach : reachable sample_externals sample_config
                     (artifact_of sample_config (PlotPng None) (py "Gfap"))
                     with_data [sham_request; sham_request]
                     after_two_gfap_calls).
  { exists (firstn 12 interleaving). vm_compute. reflexivity. }
  destruct (concurrent_calls_render_one_at_a_time sample_externals sample_config
              (PlotPng None) (py "Gfap") (py "Gfap") with_data
              [sham_request; sham_request] after_two_gfap_calls
              eq_refl eq_refl Hreach) as [_ [H1 [H2 _]]].
  split; assumption.
Defined.

(** C1 fails as stated when the render fails: of two concurrent calls
    for a gene that is not in the data set, each calls [_draw] in its turn
    and each raises [GENE_NOT_FOUND], which is neither a cache hit nor a
    lock timeout. The same shows with the entry point itself, called
    twice: the data set is read twice. *)
Lemma failed_render_is_repeated :
  outcome (run sample_externals sample_config nope_artifact interleaving
             (issue with_data [sham_request; sham_request]))
  = Some ([Done (inl (RenderError GENE_NOT_FOUND));
           Done (inl (RenderError GENE_NOT_FOUND))], 2%nat, 0%nat)
  /\
  (let first := ensure sample_externals sample_config (PlotPng None)
                  (py "Nope") None None None with_data in
   let second := ensure sample_externals sample_config (PlotPng None)
                   (py "Nope") None None None (snd first) in
   fst first = inl (RenderError GENE_NOT_FOUND) /\
   fst second = inl (RenderError GENE_NOT_FOUND) /\
   reads (new_events with_data (snd second)) = [sham_h5ad; sham_h5ad]).
Proof. split; vm_compute; repeat split; reflexivity. Qed.

(* ----------------------------------------------------------------- *)
(** ** Acquiring and releasing the lock of an artifact *)

Lemma parent_shorter (p : path) :
  p <> [] -> (List.length (parent p) < List.length p)%nat.
Proof.
  intros Hp. destruct (exists_last Hp) as [d [n ->]].
  rewrite parent_snoc, length_app. cbn. lia.
Qed.

Lemma parent_nonempty_path (p : path) : parent p <> [] -> p <> [].
Proof. intros H ->. now apply H. Qed.

Section Acquire.

Context (X : externals).

(** A free lock is acquired in the first round. *)
Lemma acquire_free (self : FileLock) (w : world) :
  exists_in (lock_path self) w = false ->
  parent (lock_path self) <> [] ->
  acquire X self w =
  (inr (set_fd self (Some (fresh_fd w))),
   after_lock X (lock_path self) (after_mkdir (parent (lock_path self)) w)).
Proof.
  intros Hfree Hpar. unfold acquire.
  rewrite bind_run, mkdir_p_run, bind_run. cbn [time_time gets].
  unfold acquire_rounds. rewrite Nat.add_comm. cbn [Nat.add acquire_loop].
  rewrite bind_run, try_lock_run, acquire_prune_lock_run.
  rewrite exists_in_after_mkdir
    by (apply parent_shorter, parent_nonempty_path, Hpar).
  rewrite Hfree, is_dir_after_mkdir by exact Hpar. reflexivity.
Qed.




End Acquire.

Section Release.

Context (X : externals) (cfg : config).

(** [with lock: body] when the lock was acquired: the release runs after
    [body] whatever [body] returned or raised. *)
Lemma with_FileLock_acquired {A} (lock self : FileLock) (body : M A)
  (w w1 : world) :
  acquire X lock w = (inr self, w1) ->
  with_FileLock X lock body w =
  (match fst (release self (snd (body w1))) with
   | inr _ => fst (body w1)
   | inl e => inl e
   end,
   snd (release self (snd (body w1)))).
Proof.
  intros H. unfold with_FileLock. rewrite bind_run, H. unfold try_finally.
  destruct (body w1) as [r w2]. cbn [fst snd].
  now destruct (release self w2) as [[e|u] w3].
Qed.




End Release.




Section Released.

Context (X : externals) (cfg : config).



End Released.


(* ----------------------------------------------------------------- *)
(** ** The steps of a call and the function it runs *)

Section Alone.

Context (X : externals) (cfg : config) (a : artifact) (rq : request).

(** The steps of the concurrent model are those of the function: a call
    that finds its lock free and runs without interruption ends, after
    seven steps, with the result and in the world of [ensure_cached]. *)
Lemma alone_runs_ensure_cached (w : world) :
  exists_in (a_lock a) w = false ->
  parent (a_lock a) <> [] ->
  alone X cfg a rq 7 AtCheck w =
  (Done (fst (ensure_cached X cfg a rq w)), snd (ensure_cached X cfg a rq w)).
Proof.
  intros Hfree Hpar. unfold ensure_cached.
  rewrite bind_run, path_exists_run.
  cbn [alone call_step]. rewrite path_exists_run.
  set (w0 := with_log [EvExists (a_out a)] w).
  change (exists_in (a_out a) w) with (exists_in (a_out a) w0).
  destruct (exists_in (a_out a) w0) eqn:Hit; [reflexivity|].
  assert (Hfree0 : exists_in (lock_path (new_FileLock (a_lock a))) w0 = false)
    by exact Hfree.
  pose proof (acquire_free X (new_FileLock (a_lock a)) w0 Hfree0 Hpar) as Hacq.
  rewrite (with_FileLock_acquired X _ _ _ _ _ Hacq).
  cbn [lock_path new_FileLock] in *.
set (self := set_fd (new_FileLock (a_lock a)) (Some (fresh_fd w0))) in *.
  set (w1 := after_lock X (a_lock a) (after_mkdir (parent (a_lock a)) w0)) in *.
  assert (S1 : call_step X cfg a rq AtEnter w0
               = (AtSpin (new_FileLock (a_lock a)) (w_now w0), Quiet,
                  after_mkdir (parent (a_lock a)) w0)).
  { cbn [call_step]. rewrite bind_run, mkdir_p_run. reflexivity. }
  assert (S2 : call_step X cfg a rq (AtSpin (new_FileLock (a_lock a)) (w_now w0))
                 (after_mkdir (parent (a_lock a)) w0)
               = (AtRecheck self, Quiet, w1)).
  { cbn [call_step]. rewrite try_lock_run, acquire_prune_lock_run.
    cbn [lock_path new_FileLock].
    rewrite exists_in_after_mkdir
      by (apply parent_shorter, parent_nonempty_path, Hpar).
    rewrite Hfree0, is_dir_after_mkdir by exact Hpar. reflexivity. }
  rewrite S1, S2. clear S1 S2.
  rewrite bind_run, path_exists_run.
  cbn [call_step]. rewrite path_exists_run.
  set (w2 := with_log [EvExists (a_out a)] w1).
  change (exists_in (a_out a) w1) with (exists_in (a_out a) w2).
  destruct (exists_in (a_out a) w2).
  - cbn [call_step ret fst snd].
    destruct (release self w2) as [[e|u] w3]; reflexivity.
  - cbn [call_step]. rewrite bind_run.
    destruct (prune_cache_if_needed X cfg None None 0 w2) as [[e|r] w3].
    + cbn [call_step fst snd].
      destruct (release self w3) as [[e'|u] w4]; reflexivity.
    + cbn [call_step]. rewrite bind_run.
      destruct (_draw X cfg (r_library rq) (a_gene a) (r_layer rq) (r_basis rq)
                  (a_out a) (a_fmt a) (a_dpi a) w3) as [[e|u] w4].
      * cbn [call_step fst snd].
        destruct (release self w4) as [[e'|u] w5]; reflexivity.
      * cbn [call_step ret fst snd].
        destruct (release self w4) as [[e'|u'] w5]; reflexivity.
Qed.

End Alone.

(* ================================================================= *)
(** * Further properties: the cache *)

(* ----------------------------------------------------------------- *)
(** ** Measuring the cache *)

Lemma sizes_app (a b : list (Z * Z * path)) : sizes (a ++ b) = sizes a + sizes b.
Proof.
  unfold sizes. induction a as [|e a IH]; cbn; [reflexivity|].
  cbn in IH. rewrite IH. lia.
Qed.

Lemma sizes_perm (a b : list (Z * Z * path)) :
  Permutation a b -> sizes a = sizes b.
Proof.
  unfold sizes. induction 1; cbn in *; lia.
Qed.

Lemma fold_entries (w : world) (ps : list path) (l : list (Z * Z * path)) :
  fold_left
    (fun entries p =>
       match find_file p w with
       | Some f => entries ++ [(f_mtime f, f_size f, p)]
       | None => entries
       end) ps l
  = l ++ flat_map (entry_at w) ps.
Proof.
  revert l. induction ps as [|p ps IH]; intros l; cbn [fold_left flat_map].
  - now rewrite app_nil_r.
  - rewrite IH. unfold entry_at at 2.
    destruct (find_file p w); [now rewrite <- app_assoc|reflexivity].
Qed.

Lemma fold_sizes (w : world) (ps : list path) (z : Z) :
  fold_left
    (fun total p =>
       match find_file p w with Some f => total + f_size f | None => total end)
    ps z
  = z + sizes (flat_map (entry_at w) ps).
Proof.
  revert z. induction ps as [|p ps IH]; intros z; cbn [fold_left flat_map].
  - unfold sizes. cbn. lia.
  - rewrite IH, sizes_app. unfold entry_at at 2.
    destruct (find_file p w); unfold sizes; cbn; lia.
Qed.

(** The inventory, directory by directory. *)
Lemma inventory_entries_in (dirs : list path) (w : world) :
  inventory dirs w = flat_map (fun d => entries_in d w) dirs.
Proof.
  unfold inventory, fold_files.
  assert (H : forall l,
             fold_left
               (fun s d =>
                  if exists_in d w
                  then fold_left
                         (fun s p =>
                            match find_file p w with
                            | Some f => s ++ [(f_mtime f, f_size f, p)]
                            | None => s
                            end) (files_under d w) s
                  else s) dirs l
             = l ++ flat_map (fun d => entries_in d w) dirs).
  { induction dirs as [|d dirs IH]; intros l; cbn [fold_left flat_map].
    - now rewrite app_nil_r.
    - rewrite IH. unfold entries_in at 2.
      destruct (exists_in d w); [|reflexivity].
      now rewrite fold_entries, <- app_assoc. }
  apply (H []).
Qed.

(** The measured total is the sum over the inventory. *)
Lemma total_size_inventory (dirs : list path) (w : world) :
  total_size dirs w = sizes (inventory dirs w).
Proof.
  rewrite inventory_entries_in. unfold total_size, fold_files.
  assert (H : forall z,
             fold_left
               (fun s d =>
                  if exists_in d w
                  then fold_left
                         (fun s p =>
                            match find_file p w with
                            | Some f => s + f_size f
                            | None => s
                            end) (files_under d w) s
                  else s) dirs z
             = z + sizes (flat_map (fun d => entries_in d w) dirs)).
  { induction dirs as [|d dirs IH]; intros z; cbn [fold_left flat_map].
    - unfold sizes. cbn. lia.
    - rewrite IH, sizes_app. unfold entries_in at 2.
      destruct (exists_in d w).
      + rewrite fold_sizes. lia.
      + unfold sizes at 2. cbn. lia. }
  apply (H 0).
Qed.

Lemma total_size_app (a b : list path) (w : world) :
  total_size (a ++ b) w = total_size a w + total_size b w.
Proof.
  now rewrite !total_size_inventory, !inventory_entries_in, flat_map_app, sizes_app.
Qed.

Lemma find_file_NoDup (w : world) (f : file) :
  NoDup (map f_path (w_files w)) -> In f (w_files w) ->
  find_file (f_path f) w = Some f.
Proof.
  unfold find_file. induction (w_files w) as [|g fs IH]; intros Hnd Hin.
  - destruct Hin.
  - cbn [map] in Hnd. inversion Hnd as [|? ? Hg Hnd']; subst. cbn [find].
    destruct Hin as [->|Hin]; [now rewrite path_eqb_refl|].
    destruct (path_eqb (f_path g) (f_path f)) eqn:E; [|now apply IH].
    apply path_eqb_eq in E. exfalso. apply Hg. rewrite E. now apply in_map.
Qed.

Lemma sizes_of_files (w : world) (l : list file) :
  NoDup (map f_path (w_files w)) -> incl l (w_files w) ->
  sizes (flat_map (entry_at w) (map f_path l)) = fold_right Z.add 0 (map f_size l).
Proof.
  intros Hnd. induction l as [|f l IH]; intros Hin; [reflexivity|].
  cbn [map flat_map fold_right]. rewrite sizes_app, IH.
  - unfold entry_at. rewrite find_file_NoDup; [|exact Hnd|apply Hin; now left].
    unfold sizes. cbn. lia.
  - intros x Hx. apply Hin. now right.
Qed.

(** [_total_size_bytes] only looks: it never raises and changes nothing
    but the log. What it returns adds up over the directories it is given,
    so a directory that is passed twice, or inside another one that is
    passed too, is counted twice; a directory that does not exist counts
    for nothing; one that exists counts for the sizes of the regular files
    below it, at any depth. *)
Theorem total_size_bytes_adds_up :
  (forall a b w,
     exists x y evs,
       fst (_total_size_bytes a w) = inr x /\
       fst (_total_size_bytes b w) = inr y /\
       _total_size_bytes (a ++ b) w = (inr (x + y), with_log evs w) /\
       forallb is_scan evs = true)
  /\
  (forall d w,
     exists_in d w = false -> fst (_total_size_bytes [d] w) = inr 0)
  /\
  (forall d w,
     exists_in d w = true ->
     NoDup (map f_path (w_files w)) ->
     fst (_total_size_bytes [d] w)
     = inr (fold_right Z.add 0
              (map f_size (filter (fun f => is_under d (f_path f)) (w_files w))))).
Proof.
  split; [|split].
  - intros a b w.
    destruct (scans_total_size_bytes a w) as [ea [Ea _]].
    destruct (scans_total_size_bytes b w) as [eb [Eb _]].
    destruct (scans_total_size_bytes (a ++ b) w) as [e [E F]].
    exists (total_size a w), (total_size b w), e.
    rewrite Ea, Eb, E, total_size_app. repeat split. exact F.
  - intros d w Hd.
    destruct (scans_total_size_bytes [d] w) as [e [E _]]. rewrite E. cbn [fst].
    rewrite total_size_inventory, inventory_entries_in. cbn [flat_map].
    unfold entries_in. now rewrite Hd.
  - intros d w Hd Hnd.
    destruct (scans_total_size_bytes [d] w) as [e [E _]]. rewrite E. cbn [fst].
    rewrite total_size_inventory, inventory_entries_in. cbn [flat_map].
    unfold entries_in. rewrite Hd, app_nil_r. unfold files_under.
    f_equal. apply sizes_of_files; [exact Hnd|].
    intros f Hf. now apply filter_In in Hf as [Hf _].
Qed.

(* ----------------------------------------------------------------- *)
(** ** The budget is met *)

Lemma sizes_filter_perm (g : Z * Z * path -> bool) (a b : list (Z * Z * path)) :
  Permutation a b -> sizes (filter g a) = sizes (filter g b).
Proof.
  unfold sizes. induction 1; cbn [filter]; try reflexivity.
  - destruct (g x); cbn; lia.
  - destruct (g x), (g y); cbn; lia.
  - lia.
Qed.

Lemma sizes_nonneg (es : list (Z * Z * path)) :
  Forall (fun e => 0 <= snd (fst e)) es -> 0 <= sizes es.
Proof. unfold sizes. induction 1; cbn; lia. Qed.

Lemma sizes_filter_le (g : Z * Z * path -> bool) (es : list (Z * Z * path)) :
  Forall (fun e => 0 <= snd (fst e)) es -> sizes (filter g es) <= sizes es.
Proof.
  unfold sizes. induction 1 as [|e es He _ IH]; cbn [filter]; [lia|].
  destruct (g e); cbn; lia.
Qed.

Lemma entry_at_nonneg (w : world) (p : path) :
  Forall (fun f => 0 <= f_size f) (w_files w) ->
  Forall (fun e => 0 <= snd (fst e)) (entry_at w p).
Proof.
  intros H. unfold entry_at, find_file.
  destruct (find _ (w_files w)) as [f|] eqn:E; [|constructor].
  apply find_some in E as [E _]. rewrite Forall_forall in H.
  constructor; [|constructor]. cbn. now apply H.
Qed.

Lemma entries_in_nonneg (d : path) (w : world) :
  Forall (fun f => 0 <= f_size f) (w_files w) ->
  Forall (fun e => 0 <= snd (fst e)) (entries_in d w).
Proof.
  intros H. unfold entries_in. destruct (exists_in d w); [|constructor].
  induction (files_under d w) as [|p ps IH]; cbn [flat_map]; [constructor|].
  apply Forall_app. split; [now apply entry_at_nonneg|exact IH].
Qed.

Lemma inventory_nonneg (dirs : list path) (w : world) :
  Forall (fun f => 0 <= f_size f) (w_files w) ->
  Forall (fun e => 0 <= snd (fst e)) (inventory dirs w).
Proof.
  intros H. rewrite inventory_entries_in.
  induction dirs as [|d dirs IH]; cbn [flat_map]; [constructor|].
  apply Forall_app. split; [now apply entries_in_nonneg|exact IH].
Qed.

Section Shrink.

Context (w w' : world) (ps : list path).
Hypothesis Hfiles : w_files w' = without ps (w_files w).
Hypothesis Hdirs : w_dirs w' = w_dirs w.

Lemma find_file_shrunk (p : path) :
  find_file p w' = if existsb (path_eqb p) ps then None else find_file p w.
Proof. unfold find_file. rewrite Hfiles. apply find_without. Qed.

Lemma exists_in_shrunk (d : path) :
  exists_in d w' = true -> exists_in d w = true.
Proof.
  unfold exists_in, is_file, is_dir. rewrite find_file_shrunk, Hdirs.
  destruct (existsb (path_eqb d) ps); [|exact (fun H => H)].
  cbn [orb]. intros ->. apply orb_true_r.
Qed.

Lemma files_under_shrunk (d : path) :
  files_under d w'
  = filter (fun p => negb (existsb (path_eqb p) ps)) (files_under d w).
Proof.
  unfold files_under. rewrite Hfiles. unfold without.
  generalize (w_files w) as l.
  induction l as [|f fs IH]; [reflexivity|].
  cbn [filter].
  destruct (existsb (path_eqb (f_path f)) ps) eqn:E1;
    destruct (is_under d (f_path f)) eqn:E2; cbn [negb filter map].
  - now rewrite E1.
  - exact IH.
  - rewrite E2. cbn [map filter]. rewrite E1. cbn [negb]. now rewrite IH.
  - now rewrite E2.
Qed.

Lemma entries_shrunk (l : list path) :
  flat_map (entry_at w') (filter (fun p => negb (existsb (path_eqb p) ps)) l)
  = filter (off ps) (flat_map (entry_at w) l).
Proof.
  induction l as [|p l IH]; [reflexivity|].
  cbn [filter flat_map]. rewrite filter_app, <- IH.
  destruct (existsb (path_eqb p) ps) eqn:E; cbn [negb flat_map].
  - unfold entry_at at 2. destruct (find_file p w); cbn [filter]; [|reflexivity].
    unfold off. cbn [snd]. now rewrite E.
  - f_equal. unfold entry_at. rewrite find_file_shrunk, E.
    destruct (find_file p w); cbn [filter]; [|reflexivity].
    unfold off. cbn [snd]. now rewrite E.
Qed.

(** After removals the measured total is at most what the entries at
    the other paths stood for. *)
Lemma total_size_shrunk (dirs : list path) :
  Forall (fun f => 0 <= f_size f) (w_files w) ->
  total_size dirs w' <= sizes (filter (off ps) (inventory dirs w)).
Proof.
  intros Hpos. rewrite total_size_inventory, !inventory_entries_in.
  induction dirs as [|d dirs IH]; cbn [flat_map]; [cbn; lia|].
  rewrite filter_app, !sizes_app.
  assert (sizes (entries_in d w') <= sizes (filter (off ps) (entries_in d w))).
  { unfold entries_in at 1. destruct (exists_in d w') eqn:E.
    - apply exists_in_shrunk in E. unfold entries_in. rewrite E.
      rewrite files_under_shrunk, entries_shrunk. lia.
    - assert (Hn := entries_in_nonneg d w Hpos).
      assert (0 <= sizes (filter (off ps) (entries_in d w))); [|cbn; lia].
      apply sizes_nonneg. rewrite Forall_forall in *. intros e He.
      apply filter_In in He as [He _]. now apply Hn. }
  lia.
Qed.

End Shrink.

Lemma removable_all (w : world) (es : list (Z * Z * path)) :
  Forall (fun f => f_undeletable f = false) (w_files w) ->
  removable w es = es.
Proof.
  intros H. unfold removable.
  induction es as [|e es IH]; [reflexivity|]. cbn [filter].
  assert (R : refused w (snd e) = false).
  { unfold refused, find_file.
    destruct (find _ (w_files w)) as [f|] eqn:E; [|reflexivity].
    apply find_some in E as [E _]. rewrite Forall_forall in H. now apply H. }
  rewrite R. cbn [negb]. now rewrite IH.
Qed.

Lemma filter_off_self (es : list (Z * Z * path)) (more : list (Z * Z * path)) :
  incl es more -> filter (off (map snd more)) es = [].
Proof.
  induction es as [|e es IH]; intros Hin; [reflexivity|]. cbn [filter].
  assert (E : off (map snd more) e = false).
  { unfold off. apply negb_false_iff, existsb_path_In, in_map.
    apply Hin. now left. }
  rewrite E. apply IH. intros x Hx. apply Hin. now right.
Qed.

(** If no removal is refused and no file has a negative size, then once
    the deletion loop has gone through [tried], all the entries or enough
    of them for the running total, the files that are left are within the
    budget. *)
Lemma tried_within_budget (dirs : list path) (w : world)
  (tried rest : list (Z * Z * path)) (max_bytes : Z) :
  Forall (fun f => f_undeletable f = false) (w_files w) ->
  Forall (fun f => 0 <= f_size f) (w_files w) ->
  sort_entries (inventory dirs w) = tried ++ rest ->
  rest = [] \/ total_size dirs w - freed w tried <= max_bytes ->
  0 <= max_bytes ->
  total_size dirs (after_unlinks w tried) <= max_bytes /\
  Forall (fun f => 0 <= f_size f) (w_files (after_unlinks w tried)).
Proof.
  intros Hdel Hpos Hc Hstop Hm. unfold entry in *.
  assert (Hfreed : freed w tried = sizes tried).
  { unfold freed. now rewrite removable_all. }
  set (w1 := after_unlinks w tried).
  assert (Hf1 : w_files w1 = without (map snd tried) (w_files w)).
  { unfold w1, after_unlinks. cbn [w_files]. now rewrite removable_all. }
  assert (Hle : total_size dirs w1 <= sizes rest).
  { etransitivity.
    - apply (total_size_shrunk w w1 (map snd tried) Hf1 eq_refl dirs Hpos).
    - rewrite (sizes_filter_perm _ _ (tried ++ rest)).
      + rewrite filter_app, sizes_app.
        rewrite (filter_off_self tried tried) by apply incl_refl.
        assert (Hr : Forall (fun e => 0 <= snd (fst e)) rest).
        { assert (Hi := inventory_nonneg dirs w Hpos).
          rewrite Forall_forall in *. intros e He. apply Hi.
          apply (Permutation_in e (sort_entries_perm (inventory dirs w))).
          rewrite Hc. apply in_or_app. now right. }
        pose proof (sizes_filter_le (off (map snd tried)) rest Hr).
        cbn. lia.
      + rewrite <- Hc. symmetry. apply sort_entries_perm. }
  assert (Htot : total_size dirs w = sizes tried + sizes rest).
  { rewrite total_size_inventory, <- sizes_app, <- Hc.
    apply sizes_perm. symmetry. apply sort_entries_perm. }
  split.
  - destruct Hstop as [->|Hstop]; [cbn in Hle; lia|lia].
  - rewrite Hf1. rewrite Forall_forall in *. intros f Hf.
    apply filter_In in Hf as [Hf _]. now apply Hpos.
Qed.

Lemma total_size_le_after_release (dirs : list path) (fd : option Z) (p : path)
  (w : world) :
  Forall (fun f => 0 <= f_size f) (w_files w) ->
  total_size dirs (after_release fd p w) <= total_size dirs w.
Proof.
  intros Hpos.
  assert (H : exists ps, w_files (after_release fd p w) = without ps (w_files w)).
  { unfold after_release. cbn [w_files]. destruct (refused w p).
    - exists []. now rewrite without_nil.
    - now exists [p]. }
  destruct H as [ps H].
  etransitivity.
  - apply (total_size_shrunk w _ ps H eq_refl dirs Hpos).
  - rewrite total_size_inventory. apply sizes_filter_le.
    now apply inventory_nonneg.
Qed.

Section Budget.

Context (X : externals) (cfg : config).

(** [prune_cache_if_needed] does what it is for. When no file of the
    cache refuses to be removed, no entry is kept back and the prune lock
    is free, the call is not skipped and the total it reports in
    [after_bytes], as well as the total of the files it leaves, is within
    the budget. *)
Theorem prune_meets_the_budget (max_bytes : option Z)
  (dirs : option (list path)) (keep_newest : Z) (w : world) :
  Forall (fun f => f_undeletable f = false) (w_files w) ->
  Forall (fun f => 0 <= f_size f) (w_files w) ->
  0 <= lock_payload_len X (w_now w) ->
  keep_newest <= 0 ->
  0 <= or_default (CACHE_MAX_BYTES cfg) max_bytes ->
  exists_in (prune_lock_path cfg) w = false ->
  exists r,
    fst (prune_cache_if_needed X cfg max_bytes dirs keep_newest w) = inr r /\
    skipped_due_to_lock r = false /\
    after_bytes r <= or_default (CACHE_MAX_BYTES cfg) max_bytes /\
    total_size (or_default (CACHE_DIRS cfg) dirs)
      (snd (prune_cache_if_needed X cfg max_bytes dirs keep_newest w))
    <= or_default (CACHE_MAX_BYTES cfg) max_bytes.
Proof.
  intros Hdel Hpos Hpay Hk Hm Hfree.
  unfold prune_cache_if_needed. rewrite bind_run. cbn [time_time gets].
  change (match max_bytes with None => CACHE_MAX_BYTES cfg | Some m => m end)
    with (or_default (CACHE_MAX_BYTES cfg) max_bytes).
  change (match dirs with None => CACHE_DIRS cfg | Some ds => ds end)
    with (or_default (CACHE_DIRS cfg) dirs).
  set (mb := or_default (CACHE_MAX_BYTES cfg) max_bytes) in *.
  set (ds := or_default (CACHE_DIRS cfg) dirs).
  rewrite bind_run.
  destruct (scans_total_size_bytes ds w) as [e [E F]]. rewrite E.
  destruct (total_size ds w <=? mb) eqn:Hle.
  - apply Z.leb_le in Hle. eexists. cbn. repeat split; exact Hle.
  - destruct (prune_over_budget_free X cfg (w_now w) (total_size ds w) mb ds
                keep_newest (with_log e w) Hfree)
      as [tried [rest [e1 [e2 [Hc [_ [_ [Hrun [Hstop _]]]]]]]]].
    rewrite Hrun. cbn [fst snd].
    set (w2 := after_lock X (prune_lock_path cfg)
                 (after_mkdir (LOCK_DIR cfg) (with_log e w))) in *.
    assert (Hdel2 : Forall (fun f => f_undeletable f = false) (w_files w2)).
    { unfold w2, after_lock. cbn [w_files after_mkdir with_log].
      rewrite Forall_forall in *. intros f Hf.
      apply in_map_iff in Hf as [g [<- Hg]]. unfold grow.
      apply in_app_or in Hg as [Hg|[<-|[]]];
        destruct (path_eqb _ _); cbn; try reflexivity; now apply Hdel. }
    assert (Hpos2 : Forall (fun f => 0 <= f_size f) (w_files w2)).
    { unfold w2, after_lock. cbn [w_files w_now after_mkdir with_log].
      rewrite Forall_forall in *. intros f Hf.
      apply in_map_iff in Hf as [g [<- Hg]]. unfold grow.
      apply in_app_or in Hg as [Hg|[<-|[]]];
        destruct (path_eqb _ _); cbn; try lia;
        specialize (Hpos g Hg); lia. }
    unfold deletable_of in Hc.
    replace (0 <? keep_newest) with false in Hc by (symmetry; apply Z.ltb_ge; lia).
    cbn [andb] in Hc.
    destruct (tried_within_budget ds w2 tried rest mb Hdel2 Hpos2 Hc Hstop Hm)
      as [Hin Hpos3].
    eexists. split; [reflexivity|].
    cbn [skipped_due_to_lock after_bytes]. repeat split; [exact Hin|].
    etransitivity; [|exact Hin].
    etransitivity; [apply total_size_le_after_release; exact Hpos3|].
    apply Z.le_refl.
Qed.

End Budget.

(** In the sample cache of nine GiB a budget of five is met. *)
Lemma prune_meets_the_budget_witness :
  exists r,
    fst (prune_cache_if_needed sample_externals sample_config
           (Some (5 * GiB)) None 0 three_figures) = inr r /\
    skipped_due_to_lock r = false /\
    after_bytes r <= 5 * GiB /\
    total_size (CACHE_DIRS sample_config)
      (snd (prune_cache_if_needed sample_externals sample_config
              (Some (5 * GiB)) None 0 three_figures))
    <= 5 * GiB.
Proof.
  apply (prune_meets_the_budget sample_externals sample_config
           (Some (5 * GiB)) None 0 three_figures).
  - repeat constructor.
  - repeat constructor; vm_compute; discriminate.
  - vm_compute; discriminate.
  - lia.
  - vm_compute; discriminate.
  - reflexivity.
Defined.

(* ----------------------------------------------------------------- *)
(** ** What pruning leaves alone *)

Section PruneScope.

Context (X : externals) (cfg : config).

Lemma prune_dirs (max_bytes : option Z) (dirs : option (list path))
  (keep_newest : Z) (w : world) :
  let w' := snd (prune_cache_if_needed X cfg max_bytes dirs keep_newest w) in
  w_dirs w' = w_dirs w \/ w_dirs w' = w_dirs (after_mkdir (LOCK_DIR cfg) w).
Proof.
  intros w'. subst w'.
  unfold prune_cache_if_needed. rewrite bind_run. cbn [time_time gets].
  set (mb := match max_bytes with None => _ | Some m => m end).
  set (ds := match dirs with None => _ | Some d => d end).
  rewrite bind_run.
  destruct (scans_total_size_bytes ds w) as [e [E F]]. rewrite E.
  destruct (total_size ds w <=? mb); [now left|].
  destruct (exists_in (prune_lock_path cfg) (with_log e w)) eqn:Hl.
  - destruct (prune_over_budget_busy X cfg (w_now w) (total_size ds w) mb ds
                keep_newest (with_log e w) Hl) as [e' [_ H]].
    rewrite H. now right.
  - destruct (prune_over_budget_free X cfg (w_now w) (total_size ds w) mb ds
                keep_newest (with_log e w) Hl)
      as [tried [rest [e1 [e2 [_ [_ [_ [H _]]]]]]]].
    rewrite H. now right.
Qed.

(** [prune_cache_if_needed] creates and changes no file: apart from its
    own lock file, every file is afterwards as it was or gone, and a file
    can only be gone if it lies below one of the directories that are
    pruned. Data files and the lock files of the renders are therefore out
    of its reach under the default directories. The only directories it
    may create are the lock directory and its ancestors, and it leaves the
    descriptor table as it found it. *)
Theorem prune_removes_cached_files_only (max_bytes : option Z)
  (dirs : option (list path)) (keep_newest : Z) (w : world) (p : path) :
  p <> prune_lock_path cfg ->
  let w' := snd (prune_cache_if_needed X cfg max_bytes dirs keep_newest w) in
  (find_file p w' = find_file p w \/
   (find_file p w' = None /\
    exists d, In d (or_default (CACHE_DIRS cfg) dirs) /\ is_under d p = true)) /\
  (w_dirs w' = w_dirs w \/ w_dirs w' = w_dirs (after_mkdir (LOCK_DIR cfg) w)) /\
  w_fds w' = w_fds w.
Proof.
  intros Hp w'. subst w'.
  destruct (prune_frame X cfg max_bytes dirs keep_newest w) as [Hfd Hfile].
  destruct (Hfile p Hp) as [Hor [Hout _]].
  split; [|split; [apply prune_dirs|exact Hfd]].
  destruct (existsb (fun d => is_under d p) (or_default (CACHE_DIRS cfg) dirs))
    eqn:E.
  - apply existsb_exists in E as [d [Hd Hu]].
    destruct Hor as [Hor|Hor]; [now left|right]. split; [exact Hor|].
    now exists d.
  - left. apply Hout. intros d Hd.
    destruct (is_under d p) eqn:Hu; [|reflexivity].
    assert (existsb (fun d => is_under d p) (or_default (CACHE_DIRS cfg) dirs)
            = true) by (apply existsb_exists; now exists d).
    destruct dirs; cbn [or_default] in *; congruence.
Qed.

End PruneScope.

(** The data file of the sample is out of reach of a prune that empties
    the cache. *)
Lemma prune_removes_cached_files_only_witness :
  let w' := snd (prune_cache_if_needed sample_externals sample_config
                   (Some 0) None 0 gfap_cached) in
  find_file sham_h5ad w' = find_file sham_h5ad gfap_cached /\
  is_file gfap_png gfap_cached = true /\
  is_file gfap_png w' = false.
Proof.
  destruct (prune_removes_cached_files_only sample_externals sample_config
              (Some 0) None 0 gfap_cached sham_h5ad) as [H _].
  - vm_compute. discriminate.
  - split; [|split; vm_compute; reflexivity].
    destruct H as [H|[_ [d [Hd Hu]]]]; [exact H|].
    exfalso. revert Hu.
    destruct Hd as [<-|[<-|[<-|[]]]]; vm_compute; discriminate.
Defined.

(* ----------------------------------------------------------------- *)
(** ** The keep-newest floor, when there are enough files *)

(** With more entries than [keep_newest], the newest [keep_newest] of
    them are spared: every removal that is attempted is at the path of one
    of the older entries, so a file that the older entries do not list as
    well is left as it was. *)
Theorem keep_newest_spares_the_newest (t0 before max_bytes : Z)
  (dirs : list path) (keep_newest : Z) (w : world) :
  0 < keep_newest < Z.of_nat (List.length (inventory dirs w)) ->
  let w' := snd (prune_locked t0 before max_bytes dirs keep_newest w) in
  exists older newest,
    sort_entries (inventory dirs w) = older ++ newest /\
    List.length newest = Z.to_nat keep_newest /\
    oldest_first (older ++ newest) /\
    (forall p, In p (unlink_attempts (new_events w w')) -> In p (map snd older)) /\
    (forall e, In e newest -> ~ In (snd e) (map snd older) ->
               find_file (snd e) w' = find_file (snd e) w).
Proof.
  intros Hk w'. subst w'.
  assert (Hlen : List.length (sort_entries (inventory dirs w))
                 = List.length (inventory dirs w)).
  { apply Permutation_length, sort_entries_perm. }
  rewrite <- Hlen in Hk.
  destruct (deletable_of_floor keep_newest _ Hk) as [Hsplit Hn].
  destruct (prune_locked_spec t0 before max_bytes dirs keep_newest w)
    as [tried [rest [e1 [e2 [Hc [F1 [F2 [Hrun _]]]]]]]].
  rewrite Hrun. cbn [snd].
  set (older := deletable_of keep_newest (sort_entries (inventory dirs w))) in *.
  set (newest := skipn _ _) in *.
  exists older, newest.
  assert (Htried : incl (map snd tried) (map snd older)).
  { rewrite Hc, map_app. apply incl_appl, incl_refl. }
  split; [exact Hsplit|]. split; [exact Hn|].
  split; [rewrite <- Hsplit; apply sort_entries_oldest_first|].
  split.
  - intros p Hp. apply Htried.
    rewrite (new_events_app
               (e2 ++ rev (map (fun e => EvUnlink (snd e)) tried) ++ e1)) in Hp.
    + rewrite !unlink_attempts_app, (scan_no_unlink e1), (scan_no_unlink e2),
        unlinks_unlink_attempts in Hp by assumption.
      now rewrite app_nil_r in Hp.
    + cbn. now rewrite <- !app_assoc.
  - intros e He Hnot.
    change (find_file (snd e) (with_log e2 ?x)) with (find_file (snd e) x).
    rewrite find_file_after_unlinks.
    destruct (existsb _ _) eqn:Ex; [|reflexivity]. exfalso. apply Hnot, Htried.
    apply existsb_path_In, in_map_iff in Ex as [x [<- Hx]].
    apply filter_In in Hx as [Hx _]. now apply in_map.
Qed.

(** Of the three sample figures, with [keep_newest = 1] and no room at
    all, the two older ones are removed and the newest stays. *)
Lemma keep_newest_spares_the_newest_witness :
  let w' := snd (prune_locked 0 (9 * GiB) 0 (CACHE_DIRS sample_config) 1
                   three_figures) in
  map f_path (w_files w') = [newest_png] /\
  exists older newest,
    sort_entries (inventory (CACHE_DIRS sample_config) three_figures)
    = older ++ newest /\
    List.length newest = 1%nat /\
    (forall p, In p (unlink_attempts (new_events three_figures w')) ->
               In p (map snd older)).
Proof.
  split; [vm_compute; reflexivity|].
  destruct (keep_newest_spares_the_newest 0 (9 * GiB) 0
              (CACHE_DIRS sample_config) 1 three_figures)
    as [older [newest [H1 [H2 [_ [H3 _]]]]]].
  - vm_compute. split; reflexivity.
  - exists older, newest. repeat split; assumption.
Defined.
